(** * sort-lines: the line-transformation core of [src/sort-lines.ts]

    A shallow embedding of the comparators, field extractors, reducers,
    pipeline table, range resolver and write adapter of the extension,
    followed by the properties stated about them.

    ECMAScript strings are sequences of UTF-16 code units; they are
    modelled as [list N].  Host facilities that the source calls
    ([String.prototype.indexOf], [substring], [match], the string
    iterator behind [Array.from], [Array.prototype.sort], [Set],
    [Intl.Collator], the editor's document and edit builder) are
    modelled next to their call sites, each according to its
    documented behaviour. *)

From Stdlib Require Import ZArith NArith List Lia Bool String Ascii.
From Stdlib Require Import Sorting.Sorted.
From Stdlib Require Import QArith Qround Qabs Lqa.
From stdpp Require Import base list sorting.

Local Open Scope Z_scope.

(* ===================================================================== *)
(** ** ECMAScript strings *)
(* ===================================================================== *)

(** A string value: its UTF-16 code units, each below [2^16]. *)
Abbreviation jsstring := (list N).

(** An ASCII literal as a string value. *)
Definition js (s : string) : jsstring :=
  map N_of_ascii (list_ascii_of_string s).

(** [a === b] on strings: same sequence of code units. *)
Fixpoint str_eqb (a b : jsstring) : bool :=
  match a, b with
  | [], [] => true
  | x :: a', y :: b' => (x =? y)%N && str_eqb a' b'
  | _, _ => false
  end.

(** [a < b] on strings (IsLessThan): [b] a prefix of [a] gives false,
    [a] a proper prefix of [b] gives true, otherwise the code units at
    the first differing index decide. *)
Fixpoint str_ltb (a b : jsstring) : bool :=
  match a, b with
  | _, [] => false
  | [], _ :: _ => true
  | x :: a', y :: b' =>
      if (x <? y)%N then true
      else if (y <? x)%N then false
      else str_ltb a' b'
  end.

(** [s.indexOf(c)] for a single code unit [c]: the first index holding
    [c], or [-1]. *)
Fixpoint indexOf (s : jsstring) (c : N) : Z :=
  match s with
  | [] => -1
  | x :: s' =>
      if (x =? c)%N then 0
      else let r := indexOf s' c in if r <? 0 then -1 else r + 1
  end.

(** [s.substring(from, to)]: both arguments are clamped to
    [[0, s.length]] and swapped when [from > to]. *)
Definition substring (s : jsstring) (from to : Z) : jsstring :=
  let len := Z.of_nat (length s) in
  let f := Z.min (Z.max from 0) len in
  let t := Z.min (Z.max to 0) len in
  let lo := Z.min f t in
  let hi := Z.max f t in
  take (Z.to_nat (hi - lo)) (drop (Z.to_nat lo) s).

(** Surrogate code units. *)
Definition isLeadSurrogate (c : N) : bool :=
  ((0xD800 <=? c) && (c <=? 0xDBFF))%N.
Definition isTrailSurrogate (c : N) : bool :=
  ((0xDC00 <=? c) && (c <=? 0xDFFF))%N.

(** [Array.from(s)] on a string runs the string iterator, which yields
    one element per code point: a lead surrogate followed by a trail
    surrogate is one element, any other code unit (a lone surrogate
    too) is one element.  Elements are given by their code point. *)
Fixpoint Array_from (s : jsstring) : list N :=
  match s with
  | [] => []
  | c :: rest =>
      if isLeadSurrogate c then
        match rest with
        | d :: rest' =>
            if isTrailSurrogate d
            then ((c - 0xD800) * 0x400 + (d - 0xDC00) + 0x10000)%N
                   :: Array_from rest'
            else c :: Array_from rest
        | [] => [c]
        end
      else c :: Array_from rest
  end.

(** The UTF-16 encoding of a sequence of code points. *)
Definition utf16_unit (cp : N) : jsstring :=
  if (cp <? 0x10000)%N then [cp]
  else [(0xD800 + (cp - 0x10000) / 0x400)%N;
        (0xDC00 + (cp - 0x10000) mod 0x400)%N].

Definition utf16 (cps : list N) : jsstring := flat_map utf16_unit cps.

(** A Unicode scalar value: below [0x110000] and not a surrogate. *)
Definition isScalar (cp : N) : bool :=
  ((cp <? 0x110000) && negb ((0xD800 <=? cp) && (cp <=? 0xDFFF)))%N.

(* ===================================================================== *)
(** ** Field extractor: [getVariableCharacters] *)
(* ===================================================================== *)

(** LineTerminator code points, which [.] does not match. *)
Definition isLineTerminator (c : N) : bool :=
  ((c =? 0x0A) || (c =? 0x0D) || (c =? 0x2028) || (c =? 0x2029))%N.

Definition EQUALS_SIGN : N := 61.
Definition LESS_THAN_SIGN : N := 60.

(** The regular expression of [getVariableCharacters] (a capture group
    holding a starred dot, then an equals sign) tried at the head of
    [s].  The star is greedy:
    it first takes one more code unit and lets the rest of the pattern
    run; only when that fails does it stop here and ask for [=].  The
    result is the text of the capture group. *)
Fixpoint match_here (s : jsstring) : option jsstring :=
  match s with
  | [] => None
  | c :: rest =>
      if isLineTerminator c then None
      else match match_here rest with
           | Some cap => Some (c :: cap)
           | None => if (c =? EQUALS_SIGN)%N then Some [] else None
           end
  end.

(** [line.match(re)] for that expression, which has no global flag:
    the pattern is tried at index 0, 1, ... and
    the first index where it succeeds wins.  The match array holds the
    whole match and then the capture group. *)
Fixpoint String_match (line : jsstring) : option (list jsstring) :=
  match match_here line with
  | Some cap => Some [cap ++ [EQUALS_SIGN]; cap]
  | None =>
      match line with
      | [] => None
      | _ :: rest => String_match rest
      end
  end.

(** [arr.pop()]: the last element, [undefined] on an empty array. *)
Definition Array_pop {A} (arr : list A) : option A := last arr.

Definition getVariableCharacters (line : jsstring) : jsstring :=
  match String_match line with
  | None => line
  | Some m =>
      match Array_pop m with
      | None => line
      | Some [] => line          (* the empty string is falsy *)
      | Some last => last
      end
  end.

(** The key as the specification words it: the text strictly before the
    last [=], the whole line when there is none. *)
Fixpoint lastIndexOf_eq (s : jsstring) : option nat :=
  match s with
  | [] => None
  | c :: rest =>
      match lastIndexOf_eq rest with
      | Some k => Some (S k)
      | None => if (c =? EQUALS_SIGN)%N then Some 0%nat else None
      end
  end.

Definition spec_variable_key (line : jsstring) : jsstring :=
  match lastIndexOf_eq line with
  | None => line
  | Some k => take k line
  end.

Definition noLineTerminator (line : jsstring) : Prop :=
  forallb (fun c => negb (isLineTerminator c)) line = true.

(* ===================================================================== *)
(** ** Comparators *)
(* ===================================================================== *)

(** A [SortingAlgorithm]: negative, zero or positive. *)
Abbreviation SortingAlgorithm := (jsstring -> jsstring -> Z).

Definition reverseCompare (a b : jsstring) : Z :=
  if str_eqb a b then 0
  else if str_ltb a b then 1 else -1.

Definition lineLengthCompare (a b : jsstring) : Z :=
  let aLength := length (Array_from a) in
  let bLength := length (Array_from b) in
  if (aLength =? bLength)%nat then 0
  else if (bLength <? aLength)%nat then 1 else -1.

Definition lineLengthReverseCompare (a b : jsstring) : Z :=
  lineLengthCompare a b * -1.

Definition variableLengthCompare (a b : jsstring) : Z :=
  lineLengthCompare (getVariableCharacters a) (getVariableCharacters b).

Definition variableLengthReverseCompare (a b : jsstring) : Z :=
  variableLengthCompare a b * -1.

Definition timestampCompare (a b : jsstring) : Z :=
  let firstIndex := indexOf a LESS_THAN_SIGN in
  let secondIndex := indexOf b LESS_THAN_SIGN in
  if (firstIndex <? 0) || (secondIndex <? 0) then 0
  else
    let findFirstTimestamp := substring a firstIndex (firstIndex + 30) in
    let findSecoundTimestamp := substring b secondIndex (secondIndex + 30) in
    if str_eqb findFirstTimestamp findSecoundTimestamp then 0
    else if str_ltb findFirstTimestamp findSecoundTimestamp then -1 else 1.

Definition dateCompare (a b : jsstring) : Z :=
  let firstIndex := indexOf a LESS_THAN_SIGN in
  let secondIndex := indexOf b LESS_THAN_SIGN in
  if (firstIndex <? 0) || (secondIndex <? 0) then 0
  else
    let findFirstDate := substring a firstIndex (firstIndex + 10) in
    let findSecoundDate := substring b secondIndex (secondIndex + 10) in
    if str_eqb findFirstDate findSecoundDate then 0
    else if str_ltb findFirstDate findSecoundDate then -1 else 1.

(** *** The host collator

    [localeCompare] and [Intl.Collator] compare by the Unicode
    Collation Algorithm: a string is mapped to collation elements, each
    carrying a primary weight (the base letter), a secondary weight
    (accents) and a tertiary weight (case); for each level the non-zero
    weights of the whole string form a key, and keys are compared level
    by level.  Which levels take part is the [sensitivity] option.  The
    mapping from strings to collation elements is locale data of the
    host and is a parameter here. *)

Record CollationElement := CE {
  primary : N;
  secondary : N;
  tertiary : N
}.

Inductive Sensitivity := sens_base | sens_accent | sens_case | sens_variant.

Definition levelKey (w : CollationElement -> N) (ces : list CollationElement)
  : list N :=
  filter (fun x => x <> 0%N) (map w ces).

Definition keyCompare (k1 k2 : list N) : Z :=
  if str_eqb k1 k2 then 0 else if str_ltb k1 k2 then -1 else 1.

(** Compare by the first level that tells the keys apart. *)
Fixpoint levelsCompare (levels : list (CollationElement -> N))
    (x y : list CollationElement) : Z :=
  match levels with
  | [] => 0
  | w :: more =>
      let r := keyCompare (levelKey w x) (levelKey w y) in
      if r =? 0 then levelsCompare more x y else r
  end.

Definition sensitivityLevels (s : Sensitivity)
  : list (CollationElement -> N) :=
  match s with
  | sens_base => [primary]
  | sens_accent => [primary; secondary]
  | sens_case => [primary; tertiary]
  | sens_variant => [primary; secondary; tertiary]
  end.

Definition Collator_compare (elements : jsstring -> list CollationElement)
    (s : Sensitivity) (a b : jsstring) : Z :=
  levelsCompare (sensitivityLevels s) (elements a) (elements b).

(** [a.localeCompare(b, undefined, {sensitivity: 'base'})], over the
    collation elements of the default locale. *)
Definition caseInsensitiveCompare
    (elements : jsstring -> list CollationElement) (a b : jsstring) : Z :=
  Collator_compare elements sens_base a b.

(** [intlCollator] is created on first use with [numeric: true] and the
    default sensitivity, [variant]; it is never changed afterwards.
    With [numeric] on, a run of digits is mapped to elements ordered by
    the number it denotes. *)
Definition naturalCompare
    (numericElements : jsstring -> list CollationElement) (a b : jsstring) : Z :=
  Collator_compare numericElements sens_variant a b.

(* ===================================================================== *)
(** ** Transformers *)
(* ===================================================================== *)

Abbreviation ArrayTransformer := (list jsstring -> list jsstring).

(** The comparison [Array.prototype.sort] uses without a comparator. *)
Definition defaultCompare (a b : jsstring) : Z :=
  if str_ltb a b then -1 else if str_ltb b a then 1 else 0.

(** [Array.prototype.sort]: a stable sort (required since ES2019),
    here by insertion from the right.  A line moves past the lines
    after it that it compares greater than and stops before the first
    one it does not, so lines that compare equal keep their order.
    This is the array every engine returns when the comparator is a
    consistent order; for a comparator that is not (one that ties a
    line with two lines it tells apart), the arrangement is left to the
    engine and nothing is stated about it below. *)
Fixpoint sortInsert (cmp : SortingAlgorithm) (x : jsstring)
    (sorted : list jsstring) : list jsstring :=
  match sorted with
  | [] => [x]
  | y :: rest =>
      if cmp x y >? 0 then y :: sortInsert cmp x rest
      else x :: y :: rest
  end.

Definition Array_sort (algorithm : option SortingAlgorithm)
    (lines : list jsstring) : list jsstring :=
  let cmp := match algorithm with Some f => f | None => defaultCompare end in
  foldr (sortInsert cmp) [] lines.

Definition makeSorter (algorithm : option SortingAlgorithm) : ArrayTransformer :=
  fun lines => Array_sort algorithm lines.

(** A [Set] keeps its members in insertion order; adding a member that
    is already there (same code units) changes nothing. *)
Definition Set_add (s : list jsstring) (x : jsstring) : list jsstring :=
  if existsb (str_eqb x) s then s else s ++ [x].

Definition new_Set (items : list jsstring) : list jsstring :=
  fold_left Set_add items [].

(** [Array.from(new Set(lines))]: the members in insertion order. *)
Definition removeDuplicates (lines : list jsstring) : list jsstring :=
  new_Set lines.

(** WhiteSpace and LineTerminator code units, which [trim] strips. *)
Definition isTrimmed (c : N) : bool :=
  ((c =? 0x09) || (c =? 0x0B) || (c =? 0x0C) || (c =? 0x20) || (c =? 0xA0)
   || (c =? 0xFEFF) || (c =? 0x1680) || ((0x2000 <=? c) && (c <=? 0x200A))
   || (c =? 0x202F) || (c =? 0x205F) || (c =? 0x3000)
   || isLineTerminator c)%N.

Fixpoint trimStart (s : jsstring) : jsstring :=
  match s with
  | c :: rest => if isTrimmed c then trimStart rest else s
  | [] => []
  end.

Definition String_trim (s : jsstring) : jsstring :=
  rev (trimStart (rev (trimStart s))).

(** The loop of [removeBlanks] looks at [lines[i]]; a blank line is
    spliced out and the same index is looked at again, any other line
    is kept and the index moves on. *)
Fixpoint removeBlanks (lines : list jsstring) : list jsstring :=
  match lines with
  | [] => []
  | l :: rest =>
      if str_eqb (String_trim l) [] then removeBlanks rest
      else l :: removeBlanks rest
  end.

(** [arr[k]] read.  Past the end it is [undefined], which is given here
    as the empty string, the text [join] writes for it. *)
Definition Array_get (arr : list jsstring) (k : nat) : jsstring :=
  default [] (arr !! k).

(** [arr[k] = v].  Writing past the end extends the array; the entries
    in between are holes, which read as [undefined]. *)
Definition Array_set (arr : list jsstring) (k : nat) (v : jsstring)
  : list jsstring :=
  if (k <? length arr)%nat then <[k := v]> arr
  else arr ++ replicate (k - length arr) [] ++ [v].

(** [[lines[i], lines[rand]] = [lines[rand], lines[i]]]: the right-hand
    side is read first, then [lines[i]] and [lines[rand]] are written in
    that order. *)
Definition swapLines (lines : list jsstring) (i rand : nat) : list jsstring :=
  let atRand := Array_get lines rand in
  let atI := Array_get lines i in
  Array_set (Array_set lines i atRand) rand atI.

(** The loop of [shuffleSorter] from [i] down to 1. *)
Fixpoint shuffleFrom (rand : nat -> nat) (i : nat) (lines : list jsstring)
  : list jsstring :=
  match i with
  | O => lines
  | S i' => shuffleFrom rand i' (swapLines lines i (rand i))
  end.

Definition shuffleSorter (rand : nat -> nat) (lines : list jsstring)
  : list jsstring :=
  shuffleFrom rand (length lines - 1) lines.

(** *** The index [Math.floor(Math.random() * (i + 1))]

    Numbers are IEEE 754 doubles.  The finite doubles below [2^53] in
    magnitude are the rationals [m / 2^k] with [|m| < 2^53] and
    [k <= 1074]; the integers up to [2^53] are among them, so [i + 1]
    is exact.  A product is the double nearest to the exact product. *)

Fixpoint pow2 (k : nat) : positive :=
  match k with
  | O => 1%positive
  | S k' => ((pow2 k')~0)%positive
  end.

Definition isDouble (q : Q) : Prop :=
  exists (m : Z) (k : nat),
    Z.abs m < 2 ^ 53 /\ (k <= 1074)%nat /\ (q == m # pow2 k)%Q.

(** [p] is a double nearest to [q]: no double below [2^53] is nearer. *)
Definition nearestDouble (p q : Q) : Prop :=
  forall r, isDouble r -> (Qabs (p - q) <= Qabs (r - q))%Q.

Definition Math_floor (q : Q) : Z := Qfloor q.

(** One evaluation of the expression: [drawn] is what [Math.random()]
    returned and [scaled] what the multiplication by [i + 1] gave. *)
Record Draw := { drawn : Q; scaled : Q }.

(** [Math.random()] returns a double that is at least 0 and less
    than 1. *)
Definition validDraw (d : Draw) (i : nat) : Prop :=
  isDouble (drawn d)
  /\ (0 <= drawn d)%Q /\ (drawn d < 1)%Q
  /\ nearestDouble (scaled d) (drawn d * inject_Z (Z.of_nat i + 1)).

(** The value of [rand]. *)
Definition drawnIndex (d : Draw) : nat := Z.to_nat (Math_floor (scaled d)).

(** The keys of [transformerSequences]. *)
Inductive Policy :=
  | sortNormal | sortUnique | sortReverse
  | sortCaseInsensitive | sortCaseInsensitiveUnique
  | sortLineLength | sortLineLengthReverse
  | sortVariableLength | sortVariableLengthReverse
  | sortNatural | sortShuffle | removeDuplicateLines
  | timestamp | sortDate.

(** What the transformers take from their environment. *)
Record Host := {
  (** collation elements in the default locale *)
  collation : jsstring -> list CollationElement;
  (** the same with the [numeric] option on *)
  collationNumeric : jsstring -> list CollationElement;
  (** the index [Math.floor(Math.random() * (i + 1))] drawn in the
      iteration of [shuffleSorter] whose loop variable is [i] *)
  randomIndex : nat -> nat
}.

Definition transformerSequences (h : Host) (p : Policy) : list ArrayTransformer :=
  match p with
  | sortNormal => [makeSorter None]
  | sortUnique => [makeSorter None; removeDuplicates]
  | sortReverse => [makeSorter (Some reverseCompare)]
  | sortCaseInsensitive =>
      [makeSorter (Some (caseInsensitiveCompare (collation h)))]
  | sortCaseInsensitiveUnique =>
      [makeSorter (Some (caseInsensitiveCompare (collation h)));
       removeDuplicates]
  | sortLineLength => [makeSorter (Some lineLengthCompare)]
  | sortLineLengthReverse => [makeSorter (Some lineLengthReverseCompare)]
  | sortVariableLength => [makeSorter (Some variableLengthCompare)]
  | sortVariableLengthReverse => [makeSorter (Some variableLengthReverseCompare)]
  | sortNatural => [makeSorter (Some (naturalCompare (collationNumeric h)))]
  | sortShuffle => [shuffleSorter (randomIndex h)]
  | removeDuplicateLines => [removeDuplicates]
  | timestamp => [makeSorter (Some timestampCompare)]
  | sortDate => [makeSorter (Some dateCompare)]
  end.

(** [transformers.reduce((currentLines, transform) => transform(currentLines), lines)] *)
Definition applyTransformers (transformers : list ArrayTransformer)
    (lines : list jsstring) : list jsstring :=
  fold_left (fun currentLines transform => transform currentLines)
            transformers lines.

(* ===================================================================== *)
(** ** The editor: documents, ranges, edits *)
(* ===================================================================== *)

Definition LF : N := 0x0A.
Definition CR : N := 0x0D.

Record Position := { line : nat; character : nat }.

(** A range keeps [start] before or at [end]; the constructor swaps its
    arguments when they come in the other order. *)
Record Range := { start : Position; end_ : Position }.

Definition isBefore (p q : Position) : bool :=
  (line p <? line q)%nat
  || ((line p =? line q)%nat && (character p <? character q))%nat.

Definition new_Range (startLine startCharacter endLine endCharacter : nat)
  : Range :=
  let p := {| line := startLine; character := startCharacter |} in
  let q := {| line := endLine; character := endCharacter |} in
  if isBefore q p then {| start := q; end_ := p |}
  else {| start := p; end_ := q |}.

(** [isEmpty]: start and end are the same position. *)
Definition isEmpty (r : Range) : bool :=
  (line (start r) =? line (end_ r))%nat
  && (character (start r) =? character (end_ r))%nat.

(** [isSingleLine]: start and end are on the same line. *)
Definition isSingleLine (r : Range) : bool :=
  (line (start r) =? line (end_ r))%nat.

(** A document is its lines, none holding a line break; there is always
    at least one line. *)
Abbreviation TextDocument := (list jsstring).

Definition lineCount (doc : TextDocument) : nat := length doc.

(** [document.lineAt(i).text]; [None] when [lineAt] throws. *)
Definition lineAt (doc : TextDocument) (i : nat) : option jsstring := doc !! i.

Record TextEditor := {
  document : TextDocument;
  selection : Range
}.

(** One [editBuilder.replace(range, text)]. *)
Record TextEdit := { range : Range; newText : jsstring }.

(** Inserted text is cut into lines at LF, CR LF and CR. *)
Fixpoint splitLines (text : jsstring) : list jsstring :=
  match text with
  | [] => [[]]
  | c :: rest =>
      if (c =? LF)%N then [] :: splitLines rest
      else if (c =? CR)%N then
        match rest with
        | d :: rest' =>
            if (d =? LF)%N then [] :: splitLines rest'
            else [] :: splitLines rest
        | [] => [] :: splitLines rest
        end
      else
        match splitLines rest with
        | l :: ls => (c :: l) :: ls
        | [] => [[c]]
        end
  end.

(** The document after the edit: what stands before the range on its
    first line and after it on its last line is kept around the new
    text, and the lines outside the range stay. *)
Definition applyEdit (doc : TextDocument) (e : TextEdit) : TextDocument :=
  let s := start (range e) in
  let f := end_ (range e) in
  let before := take (character s) (default [] (doc !! line s)) in
  let after := drop (character f) (default [] (doc !! line f)) in
  take (line s) doc
    ++ splitLines (before ++ newText e ++ after)
    ++ drop (S (line f)) doc.

(** [lines.join(sep)] *)
Fixpoint Array_join (lines : list jsstring) (sep : jsstring) : jsstring :=
  match lines with
  | [] => []
  | [l] => l
  | l :: rest => l ++ sep ++ Array_join rest sep
  end.

(* ===================================================================== *)
(** ** [sortLines] and [sortActiveSelection] *)
(* ===================================================================== *)

(** The settings under [sortLines] and the active editor. *)
Record Workbench := {
  activeTextEditor : option TextEditor;
  sortEntireFile : bool;
  filterBlankLines : bool
}.

(** The three texts passed to [showErrorMessage]. *)
Inductive ErrorMessage :=
  | msg_source_file_too_large      (* no active text editor *)
  | msg_did_not_select_any_text    (* the selection is empty *)
  | msg_single_line.               (* the selection is on one line *)

(** The loop that reads lines [i .. i + count - 1]; [None] when
    [lineAt] throws. *)
Fixpoint readLines (doc : TextDocument) (i count : nat)
  : option (list jsstring) :=
  match count with
  | O => Some []
  | S n =>
      match lineAt doc i, readLines doc (S i) n with
      | Some l, Some ls => Some (l :: ls)
      | _, _ => None
      end
  end.

(** The edit [sortLines] asks for; [None] when it throws before. *)
Definition sortLines (w : Workbench) (textEditor : TextEditor)
    (startLine endLine : nat) (transformers : list ArrayTransformer)
  : option TextEdit :=
  match readLines (document textEditor) startLine (S endLine - startLine) with
  | None => None
  | Some lines =>
      let lines := if filterBlankLines w then removeBlanks lines else lines in
      let lines := applyTransformers transformers lines in
      match lineAt (document textEditor) endLine with
      | None => None
      | Some endText =>
          Some {| range := new_Range startLine 0 endLine (length endText);
                  newText := Array_join lines [LF] |}
      end
  end.

(** What one command did: the messages shown, in order, and the edit
    handed to the editor, if any. *)
Record Outcome := {
  shown : list ErrorMessage;
  edit : option TextEdit
}.

Definition sortActiveSelection (w : Workbench)
    (transformers : list ArrayTransformer) : Outcome :=
  match activeTextEditor w with
  | None => {| shown := [msg_source_file_too_large]; edit := None |}
  | Some textEditor =>
      let selection := selection textEditor in
      let shown1 :=
        if isEmpty selection then [msg_did_not_select_any_text] else [] in
      if isEmpty selection && sortEntireFile w then
        {| shown := shown1;
           edit := sortLines w textEditor 0
                     (lineCount (document textEditor) - 1) transformers |}
      else if isSingleLine selection then
        {| shown := shown1 ++ [msg_single_line]; edit := None |}
      else
        {| shown := shown1;
           edit := sortLines w textEditor (line (start selection))
                     (line (end_ selection)) transformers |}
  end.

(** A command: its policy's transformers run on the active selection. *)
Definition command (h : Host) (w : Workbench) (p : Policy) : Outcome :=
  sortActiveSelection w (transformerSequences h p).

(** The document an outcome leaves behind. *)
Definition documentAfter (doc : TextDocument) (o : Outcome) : TextDocument :=
  match edit o with
  | Some e => applyEdit doc e
  | None => doc
  end.

(* ===================================================================== *)
(** ** Notions used to state the properties *)
(* ===================================================================== *)

(** *** Windows *)

(** [s] cut at its first [<]: what stands before it and what follows. *)
Definition cutAtFirstLt (s before after : jsstring) : Prop :=
  s = before ++ LESS_THAN_SIGN :: after /\ LESS_THAN_SIGN ∉ before.

(** The window counted in code points, as the specification words it:
    the first [n] code points from the first [<] on. *)
Definition spec_window (n : nat) (s : jsstring) : list N :=
  take n (Array_from (drop (Z.to_nat (indexOf s LESS_THAN_SIGN)) s)).

Definition spec_windowCompare (n : nat) (a b : jsstring) : Z :=
  if (indexOf a LESS_THAN_SIGN <? 0) || (indexOf b LESS_THAN_SIGN <? 0)
  then 0
  else keyCompare (spec_window n a) (spec_window n b).

(** The shape both comparators share, for a window of [n] code units. *)
Definition windowCompare (n : nat) (a b : jsstring) : Z :=
  let i := indexOf a LESS_THAN_SIGN in
  let j := indexOf b LESS_THAN_SIGN in
  if (i <? 0) || (j <? 0) then 0
  else keyCompare (take n (drop (Z.to_nat i) a)) (take n (drop (Z.to_nat j) b)).

(** No code unit of [s] is a surrogate: every code point of [s] is in
    the Basic Multilingual Plane. *)
Definition noSurrogate (s : jsstring) : Prop :=
  Forall (fun c => isLeadSurrogate c = false /\ isTrailSurrogate c = false) s.

(** Two lines whose 30-code-point windows differ in their last code
    point only, behind a character outside the Basic Multilingual
    Plane (U+1F600, two code units). *)
Definition astralLine (final : N) : jsstring :=
  [LESS_THAN_SIGN; 0xD83D%N; 0xDE00%N] ++ repeat 0x61%N 27 ++ [final].

(** *** The shuffle, step by step *)

(** [after] is [before] with the lines at [i] and [j] exchanged. *)
Definition isSwapOf (before after : list jsstring) (i j : nat) : Prop :=
  length after = length before
  /\ after !! i = before !! j
  /\ after !! j = before !! i
  /\ forall k, k <> i -> k <> j -> after !! k = before !! k.

(** [shuffleSteps rand i lines final]: going through the indices [i],
    [i - 1], ..., 1 in this order and exchanging, at each index, the
    line there with the line at the index drawn for it, turns [lines]
    into [final]. *)
Inductive shuffleSteps (rand : nat -> nat)
  : nat -> list jsstring -> list jsstring -> Prop :=
  | shuffle_done (lines : list jsstring) : shuffleSteps rand 0 lines lines
  | shuffle_swap (i : nat) (lines swapped final : list jsstring) :
      isSwapOf lines swapped (S i) (rand (S i)) ->
      shuffleSteps rand i swapped final ->
      shuffleSteps rand (S i) lines final.

(** *** Collation *)

Definition primaryKey (elements : jsstring -> list CollationElement)
    (s : jsstring) : list N := levelKey primary (elements s).
Definition secondaryKey (elements : jsstring -> list CollationElement)
    (s : jsstring) : list N := levelKey secondary (elements s).
Definition tertiaryKey (elements : jsstring -> list CollationElement)
    (s : jsstring) : list N := levelKey tertiary (elements s).

(** Same base letters and accents, different case. *)
Definition differOnlyInCase (elements : jsstring -> list CollationElement)
    (a b : jsstring) : Prop :=
  primaryKey elements a = primaryKey elements b
  /\ secondaryKey elements a = secondaryKey elements b
  /\ tertiaryKey elements a <> tertiaryKey elements b.

(** Same base letters and case, different accents. *)
Definition differOnlyInDiacritics (elements : jsstring -> list CollationElement)
    (a b : jsstring) : Prop :=
  primaryKey elements a = primaryKey elements b
  /\ tertiaryKey elements a = tertiaryKey elements b
  /\ secondaryKey elements a <> secondaryKey elements b.

(** Sample locale data in the layout of the default Unicode table:
    a letter without accent carries the common secondary weight [0x20],
    the acute accent the secondary weight [0x24]; lower case carries
    the tertiary weight [0x02], upper case [0x08].  The precomposed
    letters U+00E9 and U+00C9 are given as one element each. *)
Definition latinElements (c : N) : list CollationElement :=
  if ((0x61 <=? c) && (c <=? 0x7A))%N then [CE (c - 0x60) 0x20 0x02]
  else if ((0x41 <=? c) && (c <=? 0x5A))%N then [CE (c - 0x40) 0x20 0x08]
  else if (c =? 0x301)%N then [CE 0 0x24 0x02]
  else if (c =? 0xE9)%N then [CE 5 0x24 0x02]
  else if (c =? 0xC9)%N then [CE 5 0x24 0x08]
  else [CE (0x100 + c) 0x20 0x02].

Definition latinCollation (s : jsstring) : list CollationElement :=
  flat_map latinElements s.

(** *** Documents *)

Definition noLineBreak (l : jsstring) : Prop := (LF ∉ l) /\ (CR ∉ l).

(** The lines [startLine .. endLine] of a document. *)
Definition spanLines (doc : TextDocument) (startLine endLine : nat)
  : list jsstring :=
  take (S endLine - startLine) (drop startLine doc).

(** An editor on a document of two lines, the cursor at its very
    beginning and nothing selected, with [sortEntireFile] switched on. *)
Definition cursorAtTop : TextEditor :=
  {| document := [js "b"; js "a"]; selection := new_Range 0 0 0 0 |}.

(** An editor on a document of six lines, lines 1 to 4 selected. *)
Definition listEditor : TextEditor :=
  {| document := [js "header"; js "b"; js "a"; js "c"; js "a"; js "footer"];
     selection := new_Range 1 0 4 1 |}.

Definition plainWorkbench : Workbench :=
  {| activeTextEditor := Some listEditor;
     sortEntireFile := false;
     filterBlankLines := false |}.

Definition wholeFileWorkbench : Workbench :=
  {| activeTextEditor := Some cursorAtTop;
     sortEntireFile := true;
     filterBlankLines := false |}.

(** The code-unit order on strings, strict and not. *)
Definition str_lt (a b : jsstring) : Prop := str_ltb a b = true.
Definition str_le (a b : jsstring) : Prop := str_ltb b a = false.

(** *** The reducers, as the source writes them *)

(** A line [trim] leaves nothing of: all its code units are white
    space or line terminators. *)
Definition isBlank (l : jsstring) : bool := forallb isTrimmed l.

(** The loop of [removeBlanks] step by step, with its index [i] and the
    array it splices.  One unit of [fuel] is one test of the loop
    condition; [None] when the fuel runs out, and when [lines[i]] is
    [undefined] (where [trim] would throw).  After a splice the index is
    decremented and the loop increment brings it back. *)
Fixpoint removeBlanksFrom (fuel : nat) (i : Z) (lines : list jsstring)
  : option (list jsstring) :=
  match fuel with
  | O => None
  | S fuel' =>
      if i <? Z.of_nat (length lines) then
        match lines !! Z.to_nat i with
        | None => None
        | Some l =>
            if str_eqb (String_trim l) [] then
              let lines := delete (Z.to_nat i) lines in
              let i := i - 1 in
              removeBlanksFrom fuel' (i + 1) lines
            else removeBlanksFrom fuel' (i + 1) lines
        end
      else Some lines
  end.

(** *** Orders that the comparators sort by *)

(** The number of code points of a line. *)
Definition codePointCount (a : jsstring) : nat := length (Array_from a).

(** [a] may stand before [b] in an array sorted with [cmp]. *)
Definition notAfter (cmp : SortingAlgorithm) (a b : jsstring) : Prop :=
  cmp a b <= 0.

(** The window of [n] code units at the first [<] of a line. *)
Definition windowOf (n : nat) (s : jsstring) : jsstring :=
  take n (drop (Z.to_nat (indexOf s LESS_THAN_SIGN)) s).

(** The length of the key of a line free of line terminators: the
    code units before its last [=], all of them when there is no [=] or
    the last one opens the line. *)
Definition variableKeyLength (line : jsstring) : nat :=
  match lastIndexOf_eq line with
  | Some (S k) => S k
  | _ => length line
  end.

(** The policies whose pipeline ends in [removeDuplicates]. *)
Definition removesDuplicates (p : Policy) : bool :=
  match p with
  | sortUnique | sortCaseInsensitiveUnique | removeDuplicateLines => true
  | _ => false
  end.

(** A host for examples: the sample locale data (which does not tell
    the [numeric] option apart) and the index [i / 2] in iteration [i]
    of the shuffle. *)
Definition sampleHost : Host :=
  {| collation := latinCollation;
     collationNumeric := latinCollation;
     randomIndex := Nat.div2 |}.

(* ===================================================================== *)
(** * Properties *)
(* ===================================================================== *)

(** Closes [a <> b] on concrete strings. *)
Ltac differ := vm_compute; let H := fresh in intros H; discriminate H.

(** Closes [c ∉ l] on a concrete list. *)
Ltac absent :=
  let H := fresh in
  intros H; vm_compute in H;
  repeat (apply elem_of_cons in H as [H|H]; [discriminate H|]);
  exact (proj1 (elem_of_nil _) H).

(** ** String comparison *)

Lemma str_eqb_eq (a b : jsstring) : str_eqb a b = true <-> a = b.
Proof.
  revert b; induction a as [|x a IH]; intros [|y b]; simpl; split;
    try congruence; try discriminate.
  - intros H. apply andb_prop in H as [Hx Hab].
    apply N.eqb_eq in Hx. apply IH in Hab. congruence.
  - intros [= -> ->]. rewrite N.eqb_refl. simpl. now apply IH.
Qed.

Lemma str_eqb_refl (a : jsstring) : str_eqb a a = true.
Proof. now apply str_eqb_eq. Qed.

Lemma str_eqb_neq (a b : jsstring) : str_eqb a b = false <-> a <> b.
Proof.
  rewrite <- str_eqb_eq. destruct (str_eqb a b); split; congruence.
Qed.

Lemma str_ltb_irrefl (a : jsstring) : str_ltb a a = false.
Proof.
  induction a as [|x a IH]; simpl; [reflexivity|].
  now rewrite N.ltb_irrefl.
Qed.

Lemma str_ltb_asym (a b : jsstring) :
  str_ltb a b = true -> str_ltb b a = false.
Proof.
  revert b; induction a as [|x a IH]; intros [|y b]; simpl; try congruence.
  destruct (N.ltb_spec x y) as [Hxy|Hxy].
  - intros _. destruct (N.ltb_spec y x); [lia|]. 
    destruct (N.ltb_spec x y); [reflexivity|lia].
  - destruct (N.ltb_spec y x) as [Hyx|Hyx]; [discriminate|].
    apply IH.
Qed.

Lemma str_ltb_total (a b : jsstring) :
  a <> b -> str_ltb a b = false -> str_ltb b a = true.
Proof.
  revert b; induction a as [|x a IH]; intros [|y b]; simpl; try congruence.
  intros Hne.
  destruct (N.ltb_spec x y) as [Hxy|Hxy]; [discriminate|].
  destruct (N.ltb_spec y x) as [Hyx|Hyx]; [reflexivity|].
  assert (x = y) by lia; subst y.
  apply IH. congruence.
Qed.

(** ** [getVariableCharacters] *)

Lemma noLineTerminator_cons (c : N) (s : jsstring) :
  noLineTerminator (c :: s) ->
  isLineTerminator c = false /\ noLineTerminator s.
Proof.
  unfold noLineTerminator; simpl. intros H.
  apply andb_prop in H as [Hc Hs]. split; [|exact Hs].
  now destruct (isLineTerminator c).
Qed.

(** On a line without line terminators the pattern, tried at the head,
    captures what stands before the last [=]. *)
Lemma match_here_last (s : jsstring) :
  noLineTerminator s ->
  match_here s = (fun k => take k s) <$> lastIndexOf_eq s.
Proof.
  induction s as [|c s IH]; intros H; [reflexivity|].
  apply noLineTerminator_cons in H as [Hc Hs].
  simpl. rewrite Hc, (IH Hs).
  destruct (lastIndexOf_eq s) as [k|]; simpl; [reflexivity|].
  now destruct (c =? EQUALS_SIGN)%N.
Qed.

Lemma lastIndexOf_eq_tail (c : N) (s : jsstring) :
  lastIndexOf_eq (c :: s) = None -> lastIndexOf_eq s = None.
Proof. simpl. now destruct (lastIndexOf_eq s). Qed.

Lemma String_match_none (s : jsstring) :
  noLineTerminator s -> lastIndexOf_eq s = None -> String_match s = None.
Proof.
  induction s as [|c s IH]; intros H Hnone; [reflexivity|].
  cbn [String_match]. rewrite (match_here_last _ H), Hnone. simpl.
  apply noLineTerminator_cons in H as [_ Hs].
  apply IH; [exact Hs|]. eapply lastIndexOf_eq_tail; eassumption.
Qed.

Lemma String_match_some (s : jsstring) (k : nat) :
  noLineTerminator s -> lastIndexOf_eq s = Some k ->
  String_match s = Some [take k s ++ [EQUALS_SIGN]; take k s].
Proof.
  intros H Hk. destruct s as [|c s]; [discriminate|].
  cbn [String_match]. now rewrite (match_here_last _ H), Hk.
Qed.

(** C1, as amended.  On a line without line terminators,
    [getVariableCharacters] returns the text strictly before the last
    [=] when that text is not empty; it returns the entire line when the
    line holds no [=] and when its only [=] is its first character. *)
Theorem getVariableCharacters_before_last_equals (line : jsstring) :
  noLineTerminator line ->
  getVariableCharacters line =
    match lastIndexOf_eq line with
    | None => line
    | Some k => if (k =? 0)%nat then line else take k line
    end.
Proof.
  intros H. unfold getVariableCharacters.
  destruct (lastIndexOf_eq line) as [k|] eqn:Hk.
  - rewrite (String_match_some _ _ H Hk). simpl.
    destruct k as [|k]; simpl.
    + reflexivity.
    + destruct line as [|c line]; [discriminate|reflexivity].
  - now rewrite (String_match_none _ H Hk).
Qed.

(** The theorem at the three sample lines of the specification. *)
Lemma getVariableCharacters_before_last_equals_witness :
  (noLineTerminator (js "FOO=bar")
   /\ getVariableCharacters (js "FOO=bar") = js "FOO")
  /\ (noLineTerminator (js "A=B=C")
      /\ getVariableCharacters (js "A=B=C") = js "A=B")
  /\ (noLineTerminator (js "NOEQUALS")
      /\ getVariableCharacters (js "NOEQUALS") = js "NOEQUALS").
Proof.
  split; [|split]; (split; [reflexivity|]).
  - rewrite (getVariableCharacters_before_last_equals (js "FOO=bar"));
      reflexivity.
  - rewrite (getVariableCharacters_before_last_equals (js "A=B=C"));
      reflexivity.
  - rewrite (getVariableCharacters_before_last_equals (js "NOEQUALS"));
      reflexivity.
Defined.

(** C1 as stated fails where the last [=] opens the line: the text
    before it is empty, and the whole line is returned instead. *)
Lemma getVariableCharacters_leading_equals :
  spec_variable_key (js "=bar") = []
  /\ getVariableCharacters (js "=bar") = js "=bar"
  /\ getVariableCharacters (js "=bar") <> spec_variable_key (js "=bar").
Proof. split; [reflexivity|]. split; [reflexivity|differ]. Qed.

(** Why line terminators are excluded above: the dot does not cross
    U+2028, so the match starts after it. *)
Example getVariableCharacters_line_separator :
  getVariableCharacters ([0x61; 0x2028] ++ js "b=c")%N = js "b".
Proof. reflexivity. Qed.

(** ** [reverseCompare] *)

(** C5.  [reverseCompare] returns 0 exactly when the lines are equal;
    on different lines it is the negation of the ascending comparison:
    1 when [a < b], -1 when [a > b]. *)
Theorem reverseCompare_inverts_ascending (a b : jsstring) :
  (reverseCompare a b = 0 <-> a = b)
  /\ (defaultCompare a b = 0 <-> a = b)
  /\ (a <> b -> reverseCompare a b = - defaultCompare a b)
  /\ (str_lt a b -> reverseCompare a b = 1)
  /\ (str_lt b a -> reverseCompare a b = -1).
Proof.
  unfold reverseCompare, defaultCompare, str_lt.
  destruct (str_eqb a b) eqn:Heq.
  - apply str_eqb_eq in Heq; subst b. rewrite str_ltb_irrefl.
    repeat split; try congruence; discriminate.
  - apply str_eqb_neq in Heq.
    destruct (str_ltb a b) eqn:Hab.
    + rewrite (str_ltb_asym _ _ Hab).
      repeat split; try congruence; try discriminate; try reflexivity.
    + rewrite (str_ltb_total _ _ Heq Hab).
      repeat split; try congruence; try discriminate; try reflexivity.
Qed.

Lemma reverseCompare_inverts_ascending_witness :
  (js "apple" <> js "banana"
   /\ reverseCompare (js "apple") (js "banana")
      = - defaultCompare (js "apple") (js "banana"))
  /\ (str_lt (js "apple") (js "banana")
      /\ reverseCompare (js "apple") (js "banana") = 1)
  /\ (str_lt (js "a") (js "b")
      /\ reverseCompare (js "b") (js "a") = -1).
Proof.
  pose proof (reverseCompare_inverts_ascending (js "apple") (js "banana"))
    as (_ & _ & Hneg & Hlt & _).
  pose proof (reverseCompare_inverts_ascending (js "b") (js "a"))
    as (_ & _ & _ & _ & Hgt).
  split; [|split].
  - split; [differ|]. apply Hneg. differ.
  - split; [reflexivity|]. apply Hlt. reflexivity.
  - split; [reflexivity|]. apply Hgt. reflexivity.
Defined.

(** ** [lineLengthCompare] *)

Lemma isScalar_units (cp : N) :
  isScalar cp = true ->
  (cp <? 0x10000)%N = true /\ isLeadSurrogate cp = false
  \/ (cp <? 0x10000)%N = false
     /\ isLeadSurrogate (0xD800 + (cp - 0x10000) / 0x400)%N = true
     /\ isTrailSurrogate (0xDC00 + (cp - 0x10000) mod 0x400)%N = true
     /\ ((0xD800 + (cp - 0x10000) / 0x400 - 0xD800) * 0x400
         + (0xDC00 + (cp - 0x10000) mod 0x400 - 0xDC00) + 0x10000)%N = cp.
Proof.
  unfold isScalar, isLeadSurrogate, isTrailSurrogate. intros H.
  apply andb_prop in H as [Hmax Hsur].
  apply N.ltb_lt in Hmax. apply negb_true_iff in Hsur.
  destruct (N.ltb_spec cp 0x10000) as [Hlt|Hge].
  - left. split; [reflexivity|].
    apply andb_false_iff. apply andb_false_iff in Hsur as [Hs|Hs].
    + now left.
    + right. apply N.leb_gt in Hs. apply N.leb_gt. lia.
  - right. split; [reflexivity|].
    pose proof (N.mod_lt (cp - 0x10000) 0x400 ltac:(lia)) as Hmod.
    assert ((cp - 0x10000) / 0x400 < 0x400)%N as Hdiv
      by (apply N.Div0.div_lt_upper_bound; lia).
    pose proof (N.div_mod (cp - 0x10000) 0x400 ltac:(lia)) as Hdm.
    generalize dependent ((cp - 0x10000) mod 0x400)%N; intros m Hmod Hdm.
    generalize dependent ((cp - 0x10000) / 0x400)%N; intros q Hdiv Hdm.
    repeat split.
    + apply andb_true_iff; split; apply N.leb_le; lia.
    + apply andb_true_iff; split; apply N.leb_le; lia.
    + lia.
Qed.

(** The string iterator gives back the code points a well-formed string
    encodes. *)
Lemma Array_from_utf16 (cps : list N) :
  Forall (fun cp => isScalar cp = true) cps -> Array_from (utf16 cps) = cps.
Proof.
  induction 1 as [|cp cps Hcp _ IH]; [reflexivity|].
  unfold utf16 in *. cbn [flat_map]. unfold utf16_unit at 1.
  destruct (isScalar_units cp Hcp) as [[Hlt Hlead]|(Hge & Hlead & Htrail & Hval)].
  - rewrite Hlt. cbn [app Array_from]. rewrite Hlead. now rewrite IH.
  - rewrite Hge. cbn [app Array_from]. rewrite Hlead, Htrail, Hval.
    now rewrite IH.
Qed.

(** C6.  For lines given by their code points, [lineLengthCompare]
    compares the numbers of code points: 0 exactly when they are equal,
    -1 when the first line has fewer, 1 when it has more; and
    [lineLengthReverseCompare] is its negation. *)
Theorem lineLengthCompare_counts_code_points (a b : jsstring) (x y : list N) :
  Forall (fun cp => isScalar cp = true) x ->
  Forall (fun cp => isScalar cp = true) y ->
  a = utf16 x -> b = utf16 y ->
  (lineLengthCompare a b = 0 <-> length x = length y)
  /\ (lineLengthCompare a b = -1 <-> (length x < length y)%nat)
  /\ (lineLengthCompare a b = 1 <-> (length y < length x)%nat)
  /\ lineLengthReverseCompare a b = - lineLengthCompare a b.
Proof.
  intros Hx Hy -> ->.
  unfold lineLengthReverseCompare, lineLengthCompare.
  rewrite (Array_from_utf16 x Hx), (Array_from_utf16 y Hy).
  destruct (Nat.eqb_spec (length x) (length y)) as [He|He].
  - repeat split; try lia; try discriminate.
  - destruct (Nat.ltb_spec (length y) (length x)) as [Hl|Hl];
      repeat split; try lia; try discriminate.
Qed.

(** The negation holds for every pair of strings, well-formed or not. *)
Lemma lineLengthReverseCompare_negates (a b : jsstring) :
  lineLengthReverseCompare a b = - lineLengthCompare a b.
Proof. unfold lineLengthReverseCompare. lia. Qed.

(** A base letter with a combining mark counts as two; U+1F600, two
    code units and four bytes of UTF-8, counts as one. *)
Lemma lineLengthCompare_counts_code_points_witness :
  length (Array_from (utf16 [0x65; 0x301]%N)) = 2%nat
  /\ length (utf16 [0x1F600; 0x61]%N) = 3%nat
  /\ lineLengthCompare (utf16 [0x65; 0x301]%N) (utf16 [0x1F600; 0x61]%N) = 0
  /\ lineLengthReverseCompare (utf16 [0x65]%N) (utf16 [0x1F600; 0x61]%N) = 1.
Proof.
  assert (Forall (fun cp => isScalar cp = true) [0x65; 0x301]%N) as H1
    by (repeat constructor).
  assert (Forall (fun cp => isScalar cp = true) [0x1F600; 0x61]%N) as H2
    by (repeat constructor).
  assert (Forall (fun cp => isScalar cp = true) [0x65]%N) as H3
    by (repeat constructor).
  pose proof (lineLengthCompare_counts_code_points _ _ _ _ H1 H2 eq_refl eq_refl)
    as (Hzero & _).
  pose proof (lineLengthCompare_counts_code_points _ _ _ _ H3 H2 eq_refl eq_refl)
    as (_ & Hless & _ & Hrev).
  split; [reflexivity|]. split; [reflexivity|]. split.
  - apply Hzero. reflexivity.
  - rewrite Hrev. rewrite (proj2 Hless); [reflexivity|]. simpl. lia.
Defined.

(** ** [timestampCompare] and [dateCompare] *)

Lemma indexOf_range (s : jsstring) (c : N) :
  -1 <= indexOf s c < Z.of_nat (length s).
Proof.
  induction s as [|x s IH]; simpl length; simpl indexOf; [lia|].
  destruct (x =? c)%N; [lia|].
  cbv zeta. destruct (Z.ltb_spec (indexOf s c) 0); lia.
Qed.

Lemma indexOf_absent (s : jsstring) (c : N) :
  c ∉ s -> indexOf s c = -1.
Proof.
  induction s as [|x s IH]; intros Hc; [reflexivity|].
  apply not_elem_of_cons in Hc as [Hne Hc]. simpl.
  destruct (N.eqb_spec x c) as [->|_]; [congruence|].
  now rewrite (IH Hc).
Qed.

Lemma indexOf_first (before after : jsstring) (c : N) :
  c ∉ before ->
  indexOf (before ++ c :: after) c = Z.of_nat (length before).
Proof.
  induction before as [|x before IH]; intros Hc.
  - simpl. now rewrite N.eqb_refl.
  - apply not_elem_of_cons in Hc as [Hne Hc]. simpl app. simpl indexOf.
    destruct (N.eqb_spec x c) as [->|_]; [congruence|].
    rewrite (IH Hc). cbv zeta.
    destruct (Z.ltb_spec (Z.of_nat (length before)) 0); simpl length; lia.
Qed.

(** A window that starts inside the string: [substring] takes [n] code
    units from index [k], fewer when the string ends before. *)
Lemma substring_window (s : jsstring) (k : Z) (n : nat) :
  0 <= k <= Z.of_nat (length s) ->
  substring s k (k + Z.of_nat n) = take n (drop (Z.to_nat k) s).
Proof.
  intros Hk. unfold substring.
  rewrite (Z.max_l k 0), (Z.min_l k (Z.of_nat (length s))) by lia.
  rewrite (Z.max_l (k + Z.of_nat n) 0) by lia.
  destruct (Z.le_gt_cases (k + Z.of_nat n) (Z.of_nat (length s))) as [Hin|Hout].
  - rewrite (Z.min_l (k + Z.of_nat n)) by lia.
    rewrite Z.min_l, Z.max_r by lia.
    replace (Z.to_nat (k + Z.of_nat n - k)) with n by lia. reflexivity.
  - rewrite (Z.min_r (k + Z.of_nat n)) by lia.
    rewrite Z.min_l, Z.max_r by lia.
    rewrite !take_ge; [reflexivity| |]; rewrite length_drop; lia.
Qed.

Lemma windowCompare_unfold (n : nat) (a b : jsstring) :
  (let firstIndex := indexOf a LESS_THAN_SIGN in
   let secondIndex := indexOf b LESS_THAN_SIGN in
   if (firstIndex <? 0) || (secondIndex <? 0) then 0
   else
     let x := substring a firstIndex (firstIndex + Z.of_nat n) in
     let y := substring b secondIndex (secondIndex + Z.of_nat n) in
     if str_eqb x y then 0 else if str_ltb x y then -1 else 1)
  = windowCompare n a b.
Proof.
  unfold windowCompare, keyCompare. cbv zeta.
  pose proof (indexOf_range a LESS_THAN_SIGN) as Ha.
  pose proof (indexOf_range b LESS_THAN_SIGN) as Hb.
  destruct (Z.ltb_spec (indexOf a LESS_THAN_SIGN) 0); [reflexivity|].
  destruct (Z.ltb_spec (indexOf b LESS_THAN_SIGN) 0); [reflexivity|].
  cbn [orb]. now rewrite !substring_window by lia.
Qed.

Lemma timestampCompare_window (a b : jsstring) :
  timestampCompare a b = windowCompare 30 a b.
Proof. exact (windowCompare_unfold 30 a b). Qed.

Lemma dateCompare_window (a b : jsstring) :
  dateCompare a b = windowCompare 10 a b.
Proof. exact (windowCompare_unfold 10 a b). Qed.

Lemma windowCompare_absent (n : nat) (a b : jsstring) :
  LESS_THAN_SIGN ∉ a \/ LESS_THAN_SIGN ∉ b -> windowCompare n a b = 0.
Proof.
  unfold windowCompare. cbv zeta.
  intros [H|H]; rewrite (indexOf_absent _ _ H); simpl; [reflexivity|].
  now rewrite orb_true_r.
Qed.

Lemma windowCompare_cut (n : nat) (a pa ra b pb rb : jsstring) :
  cutAtFirstLt a pa ra -> cutAtFirstLt b pb rb ->
  windowCompare n a b
  = keyCompare (take n (LESS_THAN_SIGN :: ra)) (take n (LESS_THAN_SIGN :: rb)).
Proof.
  intros [-> Ha] [-> Hb]. unfold windowCompare. cbv zeta.
  rewrite !indexOf_first by assumption.
  destruct (Z.ltb_spec (Z.of_nat (length pa)) 0); [lia|].
  destruct (Z.ltb_spec (Z.of_nat (length pb)) 0); [lia|].
  cbn [orb]. rewrite !Nat2Z.id, !drop_app_length. reflexivity.
Qed.

Lemma Array_from_noSurrogate (s : jsstring) :
  noSurrogate s -> Array_from s = s.
Proof.
  induction 1 as [|c s [Hlead _] _ IH]; [reflexivity|].
  simpl. now rewrite Hlead, IH.
Qed.

Lemma windowCompare_code_points (n : nat) (a b : jsstring) :
  noSurrogate a -> noSurrogate b ->
  windowCompare n a b = spec_windowCompare n a b.
Proof.
  intros Ha Hb. unfold windowCompare, spec_windowCompare, spec_window.
  cbv zeta.
  rewrite !Array_from_noSurrogate; [reflexivity| |]; now apply Forall_drop.
Qed.

(** C4, as amended.  Both comparators return 0 when either line holds
    no [<]; otherwise they compare, in code-unit order, the windows that
    start at each line's first [<] and run for 30 UTF-16 code units
    ([timestampCompare]) or 10 ([dateCompare]), shorter when the line
    ends before.  On lines without surrogate code units these are the
    windows of 30 and 10 code points. *)
Theorem window_comparators_count_code_units (a b : jsstring) :
  (LESS_THAN_SIGN ∉ a \/ LESS_THAN_SIGN ∉ b ->
   timestampCompare a b = 0 /\ dateCompare a b = 0)
  /\ (forall pa ra pb rb,
        cutAtFirstLt a pa ra -> cutAtFirstLt b pb rb ->
        timestampCompare a b
        = keyCompare (take 30 (LESS_THAN_SIGN :: ra))
                     (take 30 (LESS_THAN_SIGN :: rb))
        /\ dateCompare a b
           = keyCompare (take 10 (LESS_THAN_SIGN :: ra))
                        (take 10 (LESS_THAN_SIGN :: rb)))
  /\ (noSurrogate a -> noSurrogate b ->
      timestampCompare a b = spec_windowCompare 30 a b
      /\ dateCompare a b = spec_windowCompare 10 a b).
Proof.
  rewrite timestampCompare_window, dateCompare_window.
  split; [|split].
  - intros H. split; now apply windowCompare_absent.
  - intros pa ra pb rb Ha Hb. split; eapply windowCompare_cut; eassumption.
  - intros Ha Hb. split; now apply windowCompare_code_points.
Qed.

(** The sample lines of the specification: the windows differ at the
    day, so the first line sorts first; a line without [<] compares
    equal to anything. *)
Lemma window_comparators_count_code_units_witness :
  timestampCompare (js "x<2024-01-01T00:00:00Z> msg1")
                   (js "x<2024-01-02T00:00:00Z> msg2") = -1
  /\ dateCompare (js "x<2024-01-01T00:00:00Z> msg1")
                 (js "x<2024-01-02T00:00:00Z> msg2") = 0
  /\ timestampCompare (js "no token") (js "x<2024-01-02T00:00:00Z> msg2") = 0
  /\ timestampCompare (js "<a") (js "<b") = spec_windowCompare 30 (js "<a") (js "<b").
Proof.
  pose proof (window_comparators_count_code_units
                (js "x<2024-01-01T00:00:00Z> msg1")
                (js "x<2024-01-02T00:00:00Z> msg2")) as (_ & Hcut & _).
  destruct (Hcut (js "x") (js "2024-01-01T00:00:00Z> msg1")
                 (js "x") (js "2024-01-02T00:00:00Z> msg2")) as [Ht Hd].
  { split; [reflexivity|absent]. }
  { split; [reflexivity|absent]. }
  pose proof (window_comparators_count_code_units
                (js "no token") (js "x<2024-01-02T00:00:00Z> msg2"))
    as (Habs & _ & _).
  pose proof (window_comparators_count_code_units (js "<a") (js "<b"))
    as (_ & _ & Hbmp).
  split; [rewrite Ht; reflexivity|].
  split; [rewrite Hd; reflexivity|].
  split.
  - apply Habs. left. absent.
  - apply Hbmp; repeat constructor.
Defined.

(** C4 as stated fails behind a character outside the Basic
    Multilingual Plane: it takes two of the 30 code units, so the 30th
    code point falls outside the window the code compares. *)
Lemma timestampCompare_not_code_points :
  timestampCompare (astralLine 0x62) (astralLine 0x63) = 0
  /\ spec_windowCompare 30 (astralLine 0x62) (astralLine 0x63) = -1
  /\ timestampCompare (astralLine 0x62) (astralLine 0x63)
     <> spec_windowCompare 30 (astralLine 0x62) (astralLine 0x63).
Proof.
  split; [reflexivity|]. split; [reflexivity|]. differ.
Qed.

(** ** The date window opens the timestamp window *)

(** Once two strings differ within their first [n] code units, taking
    more code units does not change how they compare. *)
Lemma keyCompare_take_more (n m : nat) (x y : jsstring) :
  (n <= m)%nat ->
  keyCompare (take n x) (take n y) <> 0 ->
  keyCompare (take m x) (take m y) = keyCompare (take n x) (take n y).
Proof.
  unfold keyCompare. revert m x y.
  induction n as [|n IH]; intros m x y Hnm Hne.
  - rewrite !take_0 in Hne. now simpl in Hne.
  - destruct m as [|m]; [lia|].
    destruct x as [|c x], y as [|d y]; simpl in *; try reflexivity.
    destruct (N.eqb_spec c d) as [->|Hcd]; simpl in *.
    + rewrite N.ltb_irrefl in *. apply IH; [lia|exact Hne].
    + destruct (N.ltb_spec c d); [reflexivity|].
      destruct (N.ltb_spec d c); [reflexivity|lia].
Qed.

(** C9.  Whenever [dateCompare] does not return 0, [timestampCompare]
    returns the same value. *)
Theorem timestampCompare_agrees_with_dateCompare (a b : jsstring) :
  dateCompare a b <> 0 -> timestampCompare a b = dateCompare a b.
Proof.
  rewrite timestampCompare_window, dateCompare_window.
  unfold windowCompare. cbv zeta.
  destruct ((indexOf a LESS_THAN_SIGN <? 0) || (indexOf b LESS_THAN_SIGN <? 0));
    [reflexivity|].
  apply keyCompare_take_more. lia.
Qed.

Lemma timestampCompare_agrees_with_dateCompare_witness :
  dateCompare (js "x<2024-01-01T00:00:00Z> b") (js "<2023-12-31T23:59:59Z> a") <> 0
  /\ timestampCompare (js "x<2024-01-01T00:00:00Z> b")
                      (js "<2023-12-31T23:59:59Z> a")
     = dateCompare (js "x<2024-01-01T00:00:00Z> b")
                   (js "<2023-12-31T23:59:59Z> a").
Proof.
  split; [differ|].
  apply (timestampCompare_agrees_with_dateCompare
           (js "x<2024-01-01T00:00:00Z> b") (js "<2023-12-31T23:59:59Z> a")).
  differ.
Defined.

(** ** [caseInsensitiveCompare] *)

Lemma keyCompare_zero (k1 k2 : list N) : keyCompare k1 k2 = 0 <-> k1 = k2.
Proof.
  unfold keyCompare. destruct (str_eqb k1 k2) eqn:He.
  - apply str_eqb_eq in He. tauto.
  - apply str_eqb_neq in He. destruct (str_ltb k1 k2); split; congruence.
Qed.

(** C3, as amended.  With sensitivity [base] the comparison looks at
    base letters only: it returns 0 exactly when the two lines have the
    same primary key, so lines that differ only in letter case compare
    equal, and lines that differ only in diacritics compare equal too. *)
Theorem caseInsensitiveCompare_base_letters_only
    (elements : jsstring -> list CollationElement) (a b : jsstring) :
  (caseInsensitiveCompare elements a b = 0
   <-> primaryKey elements a = primaryKey elements b)
  /\ (differOnlyInCase elements a b ->
      caseInsensitiveCompare elements a b = 0)
  /\ (differOnlyInDiacritics elements a b ->
      caseInsensitiveCompare elements a b = 0).
Proof.
  assert (caseInsensitiveCompare elements a b = 0
          <-> primaryKey elements a = primaryKey elements b) as Hiff.
  { unfold caseInsensitiveCompare, Collator_compare, primaryKey. simpl.
    rewrite <- keyCompare_zero.
    destruct (Z.eqb_spec
                (keyCompare (levelKey primary (elements a))
                            (levelKey primary (elements b))) 0) as [->|Hne];
      tauto. }
  split; [exact Hiff|].
  split; intros (Hp & _ & _); now apply Hiff.
Qed.

Lemma caseInsensitiveCompare_base_letters_only_witness :
  (differOnlyInCase latinCollation (js "Apple") (js "apple")
   /\ caseInsensitiveCompare latinCollation (js "Apple") (js "apple") = 0)
  /\ (differOnlyInDiacritics latinCollation (js "resume")
        ([0x72; 0xE9] ++ js "sum" ++ [0xE9])%N
      /\ caseInsensitiveCompare latinCollation (js "resume")
           ([0x72; 0xE9] ++ js "sum" ++ [0xE9])%N = 0).
Proof.
  pose proof (caseInsensitiveCompare_base_letters_only latinCollation
                (js "Apple") (js "apple")) as (_ & Hcase & _).
  pose proof (caseInsensitiveCompare_base_letters_only latinCollation
                (js "resume") ([0x72; 0xE9] ++ js "sum" ++ [0xE9])%N)
    as (_ & _ & Hacc).
  assert (differOnlyInCase latinCollation (js "Apple") (js "apple")) as H1
    by (split; [reflexivity|split; [reflexivity|differ]]).
  assert (differOnlyInDiacritics latinCollation (js "resume")
            ([0x72; 0xE9] ++ js "sum" ++ [0xE9])%N) as H2
    by (split; [reflexivity|split; [reflexivity|differ]]).
  split; (split; [assumption|]); [exact (Hcase H1)|exact (Hacc H2)].
Defined.

(** C3 as stated fails on accents: [e] and [e] with an acute accent
    (U+00E9) differ only in diacritics and compare equal.  A collator of
    sensitivity [accent] would tell them apart. *)
Lemma caseInsensitiveCompare_ignores_diacritics :
  differOnlyInDiacritics latinCollation (js "e") [0xE9%N]
  /\ caseInsensitiveCompare latinCollation (js "e") [0xE9%N] = 0
  /\ Collator_compare latinCollation sens_accent (js "e") [0xE9%N] <> 0
  /\ ~ (forall elements a b,
          differOnlyInDiacritics elements a b ->
          caseInsensitiveCompare elements a b <> 0).
Proof.
  assert (differOnlyInDiacritics latinCollation (js "e") [0xE9%N]) as H
    by (split; [reflexivity|split; [reflexivity|differ]]).
  split; [exact H|]. split; [reflexivity|]. split; [differ|].
  intros Hall. now apply (Hall _ _ _ H).
Qed.

(** The sample of the specification, on the sample locale data. *)
Example caseInsensitiveCompare_Apple_Banana :
  caseInsensitiveCompare latinCollation (js "Apple") (js "Banana")
  = caseInsensitiveCompare latinCollation (js "apple") (js "banana").
Proof. reflexivity. Qed.

(** ** [shuffleSorter] *)

(** With both indices inside the array the assignment is a swap. *)
Lemma swapLines_within (lines : list jsstring) (i rand : nat) :
  (i < length lines)%nat -> (rand < length lines)%nat ->
  swapLines lines i rand ≡ₚ lines
  /\ length (swapLines lines i rand) = length lines.
Proof.
  intros Hi Hr. unfold swapLines, Array_get, Array_set.
  destruct (lookup_lt_is_Some_2 lines i Hi) as [x Hx].
  destruct (lookup_lt_is_Some_2 lines rand Hr) as [y Hy].
  rewrite Hx, Hy. simpl.
  destruct (Nat.ltb_spec i (length lines)); [|lia].
  rewrite length_insert.
  destruct (Nat.ltb_spec rand (length lines)); [|lia].
  split.
  - now apply Permutation_insert_swap.
  - now rewrite !length_insert.
Qed.

(** The loop keeps the lines and their number, as long as it starts
    inside the array and every index drawn is at most the loop
    variable. *)
Lemma shuffleFrom_Permutation (rand : nat -> nat) (i : nat)
    (lines : list jsstring) :
  (forall j, (rand j <= j)%nat) ->
  (i < length lines)%nat ->
  shuffleFrom rand i lines ≡ₚ lines
  /\ length (shuffleFrom rand i lines) = length lines.
Proof.
  intros Hrand. revert lines.
  induction i as [|i IH]; intros lines Hi; [now split|].
  simpl.
  destruct (swapLines_within lines (S i) (rand (S i)) Hi) as [Hp Hl].
  { specialize (Hrand (S i)). lia. }
  destruct (IH (swapLines lines (S i) (rand (S i)))) as [Hp' Hl'];
    [lia|].
  split; [now rewrite Hp'|lia].
Qed.

(** With both indices inside the array the assignment exchanges the
    two lines and touches no other. *)
Lemma swapLines_isSwapOf (lines : list jsstring) (i rand : nat) :
  (i < length lines)%nat -> (rand < length lines)%nat ->
  isSwapOf lines (swapLines lines i rand) i rand.
Proof.
  intros Hi Hr. unfold swapLines, Array_get, Array_set.
  destruct (lookup_lt_is_Some_2 lines i Hi) as [x Hx].
  destruct (lookup_lt_is_Some_2 lines rand Hr) as [y Hy].
  rewrite Hx, Hy. simpl.
  destruct (Nat.ltb_spec i (length lines)); [|lia].
  rewrite length_insert.
  destruct (Nat.ltb_spec rand (length lines)); [|lia].
  split; [now rewrite !length_insert|].
  split; [|split].
  - destruct (decide (rand = i)) as [->|Hne].
    + rewrite list_lookup_insert_eq by (rewrite length_insert; lia).
      congruence.
    + rewrite list_lookup_insert_ne by exact Hne.
      rewrite list_lookup_insert_eq by lia. congruence.
  - rewrite list_lookup_insert_eq by (rewrite length_insert; lia).
    congruence.
  - intros k Hki Hkr. now rewrite !list_lookup_insert_ne by congruence.
Qed.

(** The exchange of two lines is one list. *)
Lemma isSwapOf_unique (before a b : list jsstring) (i j : nat) :
  isSwapOf before a i j -> isSwapOf before b i j -> a = b.
Proof.
  intros (_ & Hai & Haj & Hak) (_ & Hbi & Hbj & Hbk).
  apply list_eq. intros k.
  destruct (decide (k = i)) as [->|Hki]; [congruence|].
  destruct (decide (k = j)) as [->|Hkj]; [congruence|].
  now rewrite Hak, Hbk.
Qed.

Lemma shuffleSteps_unique (rand : nat -> nat) (i : nat)
    (lines a b : list jsstring) :
  shuffleSteps rand i lines a -> shuffleSteps rand i lines b -> a = b.
Proof.
  intros Ha. revert b. induction Ha as [lines|i lines swapped a Hswap Ha IH];
    intros b Hb.
  - now inversion Hb.
  - inversion Hb as [|? ? swapped' ? Hswap' Hb']; subst.
    rewrite <- (isSwapOf_unique _ _ _ _ _ Hswap Hswap') in Hb'.
    now apply IH.
Qed.

(** The loop from [i] down: it goes through the steps, and keeps the
    lines and their number, as long as it starts inside the array and
    the index drawn for each loop variable it meets is at most that
    variable. *)
Lemma shuffleFrom_steps (rand : nat -> nat) (i : nat)
    (lines : list jsstring) :
  (forall j, (0 < j <= i)%nat -> (rand j <= j)%nat) ->
  (i < length lines)%nat ->
  shuffleSteps rand i lines (shuffleFrom rand i lines)
  /\ shuffleFrom rand i lines ≡ₚ lines
  /\ length (shuffleFrom rand i lines) = length lines.
Proof.
  revert lines. induction i as [|i IH]; intros lines Hrand Hi.
  - split; [constructor|now split].
  - simpl.
    assert (rand (S i) < length lines)%nat as Hr
      by (specialize (Hrand (S i)); lia).
    destruct (swapLines_within lines (S i) (rand (S i)) Hi Hr) as [Hp Hl].
    destruct (IH (swapLines lines (S i) (rand (S i)))) as (Hsteps & Hp' & Hl').
    + intros j Hj. apply Hrand. lia.
    + lia.
    + split; [|split; [now rewrite Hp'|lia]].
      econstructor; [|exact Hsteps].
      now apply swapLines_isSwapOf.
Qed.

Lemma pow2_Z (k : nat) : Zpos (pow2 k) = 2 ^ Z.of_nat k.
Proof.
  induction k as [|k IH]; [reflexivity|].
  rewrite Nat2Z.inj_succ, Z.pow_succ_r by lia.
  cbn [pow2]. rewrite Pos2Z.inj_xO, IH. reflexivity.
Qed.

(** The largest double below 1 is [1 - 2^-53]. *)
Lemma isDouble_below_one (u : Q) :
  isDouble u -> (u < 1)%Q -> (u <= 1 - (1 # pow2 53))%Q.
Proof.
  intros (m & k & Hm & Hk & Hu) Hlt. rewrite Hu in *.
  unfold Qlt in Hlt. unfold Qle, Qminus, Qplus, Qopp.
  cbn -[pow2 Z.mul] in *.
  rewrite Pos.mul_1_l, !pow2_Z in *.
  change (Z.of_nat 53) with 53.
  assert (0 < 2 ^ Z.of_nat k) as HB by (apply Z.pow_pos_nonneg; lia).
  destruct (le_lt_dec k 53) as [Hle|Hgt].
  - replace (2 ^ 53) with (2 ^ (53 - Z.of_nat k) * 2 ^ Z.of_nat k)
      by (rewrite <- Z.pow_add_r by lia; f_equal; lia).
    assert (0 < 2 ^ (53 - Z.of_nat k)) as HA by (apply Z.pow_pos_nonneg; lia).
    generalize dependent (2 ^ Z.of_nat k). intros B Hlt HB.
    generalize dependent (2 ^ (53 - Z.of_nat k)). intros A HA.
    assert (m * (A * B) <= (B - 1) * (A * B)) by nia.
    nia.
  - assert (2 ^ 54 <= 2 ^ Z.of_nat k) as Hbig by (apply Z.pow_le_mono_r; lia).
    change (2 ^ 54) with 18014398509481984 in Hbig.
    change (2 ^ 53) with 9007199254740992 in *.
    generalize dependent (2 ^ Z.of_nat k). intros B Hlt HB Hbig.
    nia.
Qed.

(** Below every integer [n] from 1 to [2^53] there is a double nearer
    to it than [n / 2^52]. *)
Lemma isDouble_just_below (n : Z) :
  1 <= n <= 2 ^ 53 ->
  exists d : Q,
    (0 < d)%Q /\ (4503599627370496 * d < inject_Z n)%Q
    /\ isDouble (inject_Z n - d).
Proof.
  intros Hn.
  assert (exists k : nat, (k <= 53)%nat
            /\ 2 ^ 52 < n * 2 ^ Z.of_nat k <= 2 ^ 53) as (k & Hk & Hscale).
  { destruct (Z.eq_dec n 1) as [->|Hne].
    - exists 53%nat. split; [lia|]. simpl. lia.
    - pose proof (Z.log2_up_spec n ltac:(lia)) as [Hlo Hhi].
      assert (0 < Z.log2_up n) by (apply Z.log2_up_pos; lia).
      assert (Z.log2_up n <= 53) as Hc by (apply Z.log2_up_le_pow2; lia).
      exists (Z.to_nat (53 - Z.log2_up n)). split; [lia|].
      rewrite Z2Nat.id by lia.
      replace (2 ^ 52)
        with (2 ^ Z.pred (Z.log2_up n) * 2 ^ (53 - Z.log2_up n))
        by (rewrite <- Z.pow_add_r by lia; f_equal; lia).
      replace (2 ^ 53) with (2 ^ Z.log2_up n * 2 ^ (53 - Z.log2_up n))
        by (rewrite <- Z.pow_add_r by lia; f_equal; lia).
      assert (0 < 2 ^ (53 - Z.log2_up n)) by (apply Z.pow_pos_nonneg; lia).
      nia. }
  exists (1 # pow2 k)%Q. split; [reflexivity|]. split.
  - change (4503599627370496%Q) with (inject_Z (2 ^ 52)).
    unfold Qlt. cbn -[pow2 Z.mul Z.pow]. rewrite Pos.mul_1_l, pow2_Z. lia.
  - exists (n * 2 ^ Z.of_nat k - 1), k. split; [lia|]. split; [lia|].
    unfold Qeq, Qminus, Qplus, Qopp. cbn -[pow2 Z.mul Z.pow].
    rewrite Pos.mul_1_l, !pow2_Z. ring.
Qed.

(** A draw below 1, multiplied by [n] and rounded, stays below [n]. *)
Lemma scaled_below (u p : Q) (n : Z) :
  1 <= n <= 2 ^ 53 ->
  isDouble u -> (0 <= u)%Q -> (u < 1)%Q ->
  nearestDouble p (u * inject_Z n) ->
  (0 <= p)%Q /\ (p < inject_Z n)%Q.
Proof.
  intros Hn Hu H0 H1 Hnear.
  pose proof (isDouble_below_one u Hu H1) as Hmax.
  set (q := (u * inject_Z n)%Q) in *.
  assert (0 <= inject_Z n)%Q as Hn0 by (unfold Qle; simpl; lia).
  assert (0 <= q)%Q as Hq0 by (now apply Qmult_le_0_compat).
  assert (q <= (1 - (1 # pow2 53)) * inject_Z n)%Q as Hq
    by (now apply Qmult_le_compat_r).
  change (pow2 53) with 9007199254740992%positive in Hq.
  split.
  - assert (isDouble 0) as Hz.
    { exists 0, 0%nat. split; [reflexivity|]. split; [lia|reflexivity]. }
    specialize (Hnear 0%Q Hz).
    apply Qabs_Qle_condition in Hnear as [Hlo _].
    rewrite (Qabs_neg (0 - q)) in Hlo by lra. lra.
  - destruct (isDouble_just_below n Hn) as (d & Hd & Hdn & Hr).
    specialize (Hnear _ Hr).
    apply Qabs_Qle_condition in Hnear as [_ Hhi].
    destruct (Qlt_le_dec (inject_Z n - d) q) as [Hlt|Hle].
    + rewrite (Qabs_neg (inject_Z n - d - q)) in Hhi by lra. lra.
    + rewrite (Qabs_pos (inject_Z n - d - q)) in Hhi by lra. lra.
Qed.

(** The index drawn in the iteration with loop variable [i] lies in
    [[0, i]]. *)
Lemma drawnIndex_bound (d : Draw) (i : nat) :
  Z.of_nat i + 1 <= 2 ^ 53 -> validDraw d i -> (drawnIndex d <= i)%nat.
Proof.
  intros Hi (Hu & H0 & H1 & Hnear).
  destruct (scaled_below _ _ (Z.of_nat i + 1) ltac:(lia) Hu H0 H1 Hnear)
    as [_ Hlt].
  unfold drawnIndex, Math_floor.
  assert (Qfloor (scaled d) < Z.of_nat i + 1) as Hfloor.
  { assert (inject_Z (Qfloor (scaled d)) < inject_Z (Z.of_nat i + 1))%Q
      as H by (eapply Qle_lt_trans; [apply Qfloor_le|exact Hlt]).
    unfold Qlt in H. simpl in H. lia. }
  lia.
Qed.

(** C7.  [shuffleSorter] goes through the indices from the last one
    down to 1 and exchanges the line at each index [i] with the line at
    the index drawn for it, and this fixes its output.  The index
    [Math.floor(Math.random() * (i + 1))] drawn at [i] lies in [[0, i]].
    So, whatever indices are drawn within these bounds, the output is a
    permutation of the input, of the same length. *)
Theorem shuffleSorter_Permutation :
  (forall (d : Draw) (i : nat),
      Z.of_nat i + 1 <= 2 ^ 53 -> validDraw d i -> (drawnIndex d <= i)%nat)
  /\ (forall (rand : nat -> nat) (S0 : list jsstring),
        (forall i, (0 < i < length S0)%nat -> (rand i <= i)%nat) ->
        shuffleSteps rand (length S0 - 1) S0 (shuffleSorter rand S0)
        /\ (forall out,
              shuffleSteps rand (length S0 - 1) S0 out ->
              out = shuffleSorter rand S0)
        /\ shuffleSorter rand S0 ≡ₚ S0
        /\ length (shuffleSorter rand S0) = length S0)
  /\ (forall (draws : nat -> Draw) (S0 : list jsstring),
        Z.of_nat (length S0) <= 2 ^ 53 ->
        (forall i, (0 < i < length S0)%nat -> validDraw (draws i) i) ->
        shuffleSorter (fun i => drawnIndex (draws i)) S0 ≡ₚ S0
        /\ length (shuffleSorter (fun i => drawnIndex (draws i)) S0)
           = length S0).
Proof.
  assert (forall (rand : nat -> nat) (S0 : list jsstring),
            (forall i, (0 < i < length S0)%nat -> (rand i <= i)%nat) ->
            shuffleSteps rand (length S0 - 1) S0 (shuffleSorter rand S0)
            /\ shuffleSorter rand S0 ≡ₚ S0
            /\ length (shuffleSorter rand S0) = length S0) as Hloop.
  { intros rand S0 Hrand. unfold shuffleSorter.
    destruct S0 as [|l S0]; [split; [constructor|now split]|].
    apply shuffleFrom_steps; [|simpl; lia].
    intros j Hj. apply Hrand. simpl in *. lia. }
  split; [exact drawnIndex_bound|]. split.
  - intros rand S0 Hrand. destruct (Hloop rand S0 Hrand) as (Hsteps & Hp & Hl).
    split; [exact Hsteps|]. split; [|now split].
    intros out Hout. exact (shuffleSteps_unique _ _ _ _ _ Hout Hsteps).
  - intros draws S0 Hlen Hdraws.
    apply (Hloop (fun i => drawnIndex (draws i)) S0).
    intros i Hi. apply drawnIndex_bound; [lia|now apply Hdraws].
Qed.

(** The theorem at the draw [1/2] for [i = 3], which gives the index 2,
    and at the indices [i / 2] on four lines. *)
Lemma shuffleSorter_Permutation_witness :
  (validDraw {| drawn := 1 # 2; scaled := 2 |} 3
   /\ drawnIndex {| drawn := 1 # 2; scaled := 2 |} = 2%nat
   /\ (drawnIndex {| drawn := 1 # 2; scaled := 2 |} <= 3)%nat)
  /\ ((forall i, (0 < i < 4)%nat -> (Nat.div2 i <= i)%nat)
      /\ shuffleSorter Nat.div2 [js "a"; js "b"; js "c"; js "d"]
         = [js "c"; js "a"; js "d"; js "b"]
      /\ shuffleSteps Nat.div2 3 [js "a"; js "b"; js "c"; js "d"]
           [js "c"; js "a"; js "d"; js "b"]
      /\ [js "c"; js "a"; js "d"; js "b"]
         ≡ₚ [js "a"; js "b"; js "c"; js "d"]).
Proof.
  destruct shuffleSorter_Permutation as (Hindex & Hsteps & _).
  split.
  - assert (validDraw {| drawn := 1 # 2; scaled := 2 |} 3) as Hvalid.
    { split; [|split; [|split]].
      - exists 1, 1%nat. split; [reflexivity|]. split; [lia|reflexivity].
      - unfold Qle; simpl; lia.
      - reflexivity.
      - intros r _. apply Qle_trans with 0%Q; [|apply Qabs_nonneg].
        unfold Qle; simpl; lia. }
    split; [exact Hvalid|]. split; [reflexivity|].
    apply (Hindex _ 3%nat); [simpl; lia|exact Hvalid].
  - assert (forall i, (0 < i < 4)%nat -> (Nat.div2 i <= i)%nat) as Hrand.
    { intros i _. apply Nat.lt_eq_cases. destruct i; [now right|].
      left. apply Nat.lt_div2. lia. }
    split; [exact Hrand|]. split; [reflexivity|].
    destruct (Hsteps Nat.div2 [js "a"; js "b"; js "c"; js "d"] Hrand)
      as (Hrun & _ & Hperm & _).
    split; [exact Hrun|exact Hperm].
Defined.

(** The bound on the indices matters: an index past the end would
    extend the array. *)
Example shuffleSorter_index_past_end :
  shuffleSorter (fun _ => 3%nat) [js "a"; js "b"]
  = [js "a"; []; []; js "b"].
Proof. reflexivity. Qed.

(** ** Sorting, then removing duplicates *)

Lemma str_ltb_trans (a b c : jsstring) :
  str_ltb a b = true -> str_ltb b c = true -> str_ltb a c = true.
Proof.
  revert b c; induction a as [|x a IH]; intros [|y b] [|z c]; simpl;
    try congruence.
  destruct (N.ltb_spec x y), (N.ltb_spec y x), (N.ltb_spec y z),
    (N.ltb_spec z y), (N.ltb_spec x z), (N.ltb_spec z x);
    try congruence; try lia.
  apply IH.
Qed.

Lemma str_le_trans (a b c : jsstring) :
  str_le a b -> str_le b c -> str_le a c.
Proof.
  unfold str_le. intros Hab Hbc.
  destruct (str_ltb c a) eqn:Hca; [|reflexivity].
  destruct (decide (a = b)) as [->|Hne1]; [congruence|].
  destruct (decide (b = c)) as [->|Hne2]; [congruence|].
  pose proof (str_ltb_total _ _ (not_eq_sym Hne1) Hab) as H1.
  pose proof (str_ltb_total _ _ (not_eq_sym Hne2) Hbc) as H2.
  pose proof (str_ltb_trans _ _ _ H1 H2) as H3.
  pose proof (str_ltb_asym _ _ H3). congruence.
Qed.

Lemma defaultCompare_positive (x y : jsstring) :
  (defaultCompare x y >? 0) = true <-> str_lt y x.
Proof.
  unfold defaultCompare, str_lt.
  destruct (str_ltb x y) eqn:Hxy.
  - rewrite (str_ltb_asym _ _ Hxy).
    split; intros H; vm_compute in H; discriminate H.
  - destruct (str_ltb y x); split; intros H;
      first [reflexivity | vm_compute in H; discriminate H].
Qed.

Lemma sortInsert_Permutation (cmp : SortingAlgorithm) (x : jsstring)
    (sorted : list jsstring) :
  sortInsert cmp x sorted ≡ₚ x :: sorted.
Proof.
  induction sorted as [|y rest IH]; simpl; [reflexivity|].
  destruct (cmp x y >? 0); [|reflexivity].
  rewrite IH. apply Permutation_swap.
Qed.

(** The sort returns its input rearranged, whatever the comparator. *)
Lemma Array_sort_Permutation (algorithm : option SortingAlgorithm)
    (lines : list jsstring) :
  Array_sort algorithm lines ≡ₚ lines.
Proof.
  unfold Array_sort. induction lines as [|x lines IH]; simpl; [reflexivity|].
  now rewrite sortInsert_Permutation, IH.
Qed.

Lemma sortInsert_sorted (x : jsstring) (sorted : list jsstring) :
  StronglySorted str_le sorted ->
  StronglySorted str_le (sortInsert defaultCompare x sorted).
Proof.
  induction 1 as [|y rest Hrest IH Hy]; simpl.
  - repeat constructor.
  - destruct (defaultCompare x y >? 0) eqn:Hcmp.
    + constructor; [exact IH|].
      rewrite sortInsert_Permutation. constructor; [|exact Hy].
      apply defaultCompare_positive in Hcmp. now apply str_ltb_asym.
    + assert (str_le x y) as Hxy.
      { unfold str_le. destruct (str_ltb y x) eqn:Hyx; [|reflexivity].
        apply defaultCompare_positive in Hyx. congruence. }
      constructor; [now constructor|].
      constructor; [exact Hxy|].
      eapply Forall_impl; [exact Hy|].
      intros z Hz. eapply str_le_trans; eassumption.
Qed.

(** Without a comparator the sort puts the lines in ascending
    code-unit order. *)
Lemma Array_sort_default_sorted (lines : list jsstring) :
  StronglySorted str_le (Array_sort None lines).
Proof.
  unfold Array_sort. induction lines as [|x lines IH]; simpl.
  - constructor.
  - now apply sortInsert_sorted.
Qed.

Lemma existsb_str_eqb (x : jsstring) (s : list jsstring) :
  existsb (str_eqb x) s = true <-> x ∈ s.
Proof.
  rewrite existsb_exists. split.
  - intros (y & Hy & Heq). apply str_eqb_eq in Heq. subst y.
    now apply list_elem_of_In.
  - intros H. exists x. split; [now apply list_elem_of_In|apply str_eqb_refl].
Qed.

(** What adding [items] to the set [s] keeps: the members of both, no
    member twice, in the order of first appearance. *)
Lemma fold_Set_add (items s : list jsstring) :
  (forall x, x ∈ fold_left Set_add items s <-> x ∈ s \/ x ∈ items)
  /\ (NoDup s -> NoDup (fold_left Set_add items s))
  /\ fold_left Set_add items s `sublist_of` s ++ items.
Proof.
  revert s. induction items as [|y items IH]; intros s; simpl.
  - split; [|split].
    + intros x. rewrite elem_of_nil. tauto.
    + tauto.
    + now rewrite app_nil_r.
  - destruct (IH (Set_add s y)) as (Hin & Hnd & Hsub).
    unfold Set_add in *.
    destruct (existsb (str_eqb y) s) eqn:Hy.
    + apply existsb_str_eqb in Hy. split; [|split].
      * intros x. rewrite Hin, elem_of_cons.
        split; [tauto|]. intros [H|[->|H]]; tauto.
      * exact Hnd.
      * etransitivity; [exact Hsub|].
        apply sublist_app; [reflexivity|]. now apply sublist_cons.
    + assert (y ∉ s) as Hy' by (rewrite <- existsb_str_eqb; congruence).
      split; [|split].
      * intros x. rewrite Hin, elem_of_app, list_elem_of_singleton, elem_of_cons.
        tauto.
      * intros Hs. apply Hnd. apply NoDup_app. split; [exact Hs|].
        split; [|apply NoDup_singleton].
        intros x Hx Hx'. apply list_elem_of_singleton in Hx'. now subst x.
      * now rewrite <- app_assoc in Hsub.
Qed.

Lemma StronglySorted_sublist (R : jsstring -> jsstring -> Prop)
    (l k : list jsstring) :
  l `sublist_of` k -> StronglySorted R k -> StronglySorted R l.
Proof.
  induction 1 as [|x l k Hsub IH|x l k Hsub IH]; intros Hk.
  - constructor.
  - inversion Hk as [|? ? Hk' Hx]; subst. constructor; [now apply IH|].
    apply Forall_forall. intros z Hz.
    rewrite Forall_forall in Hx. apply Hx.
    eapply elem_of_sublist; eassumption.
  - inversion Hk; subst. now apply IH.
Qed.

(** Distinct neighbours of an ascending list ascend strictly. *)
Lemma StronglySorted_strict (l : list jsstring) :
  StronglySorted str_le l -> NoDup l -> StronglySorted str_lt l.
Proof.
  induction 1 as [|x l Hl IH Hx]; intros Hnd; [constructor|].
  apply NoDup_cons in Hnd as [Hnotin Hnd].
  constructor; [now apply IH|].
  apply Forall_forall. intros y Hy.
  rewrite Forall_forall in Hx. specialize (Hx y Hy).
  apply str_ltb_total; [|exact Hx].
  intros ->. contradiction.
Qed.

(** C8.  The pipeline of [sortUnique] sorts first and removes
    duplicates from the sorted lines.  Its output ascends strictly in
    code-unit order, holds no line twice, and holds exactly the lines
    of the input; the sample input gives the sample output. *)
Theorem sortUnique_sorts_then_removes_duplicates (h : Host)
    (lines : list jsstring) :
  let output := applyTransformers (transformerSequences h sortUnique) lines in
  output = removeDuplicates (makeSorter None lines)
  /\ StronglySorted str_lt output
  /\ NoDup output
  /\ (forall x, x ∈ output <-> x ∈ lines)
  /\ applyTransformers (transformerSequences h sortUnique)
       [js "b"; js "a"; js "c"; js "a"]
     = [js "a"; js "b"; js "c"].
Proof.
  cbv zeta. unfold applyTransformers. cbn [transformerSequences fold_left].
  unfold removeDuplicates, new_Set, makeSorter.
  destruct (fold_Set_add (Array_sort None lines) []) as (Hin & Hnd & Hsub).
  specialize (Hnd (NoDup_nil_2)).
  assert (StronglySorted str_le (fold_left Set_add (Array_sort None lines) []))
    as Hsorted.
  { eapply StronglySorted_sublist; [exact Hsub|].
    apply Array_sort_default_sorted. }
  split; [reflexivity|].
  split; [now apply StronglySorted_strict|].
  split; [exact Hnd|].
  split; [|reflexivity].
  intros x. rewrite Hin, elem_of_nil, Array_sort_Permutation. tauto.
Qed.

(** Duplicates are removed by exact content and in place: no sorting
    happens in [removeDuplicates] itself. *)
Example removeDuplicates_keeps_order :
  removeDuplicates [js "b"; js "a"; js "B"; js "b"; js "a"]
  = [js "b"; js "a"; js "B"].
Proof. reflexivity. Qed.

(** ** [sortActiveSelection] on an empty selection *)

Lemma isEmpty_isSingleLine (r : Range) :
  isEmpty r = true -> isSingleLine r = true.
Proof. unfold isEmpty, isSingleLine. intros H. now apply andb_prop in H. Qed.

(** What the code does on an empty selection: the message about the
    missing selection is shown in either case; with [sortEntireFile] the
    whole document is then handed to [sortLines], without it the
    single-line message follows and nothing is edited. *)
Lemma sortActiveSelection_empty_selection (w : Workbench)
    (textEditor : TextEditor) (transformers : list ArrayTransformer) :
  activeTextEditor w = Some textEditor ->
  isEmpty (selection textEditor) = true ->
  sortActiveSelection w transformers
  = if sortEntireFile w then
      {| shown := [msg_did_not_select_any_text];
         edit := sortLines w textEditor 0
                   (lineCount (document textEditor) - 1) transformers |}
    else
      {| shown := [msg_did_not_select_any_text; msg_single_line];
         edit := None |}.
Proof.
  intros Hed Hempty. unfold sortActiveSelection.
  rewrite Hed, Hempty, (isEmpty_isSingleLine _ Hempty).
  now destruct (sortEntireFile w).
Qed.

(** C2, where the code departs from it.  With nothing selected and
    [sortEntireFile] on, the command shows the message about the missing
    selection and then sorts the whole document all the same. *)
Theorem sortActiveSelection_reports_empty_selection_and_sorts :
  isEmpty (selection cursorAtTop) = true
  /\ shown (sortActiveSelection wholeFileWorkbench [makeSorter None])
     = [msg_did_not_select_any_text]
  /\ documentAfter (document cursorAtTop)
       (sortActiveSelection wholeFileWorkbench [makeSorter None])
     = [js "a"; js "b"].
Proof. split; [reflexivity|]. split; reflexivity. Qed.

(** With [sortEntireFile] off, the same empty selection is turned down
    with both messages, and the document stays as it is. *)
Example sortActiveSelection_empty_selection_rejected :
  let w := {| activeTextEditor := Some cursorAtTop;
              sortEntireFile := false;
              filterBlankLines := false |} in
  shown (sortActiveSelection w [makeSorter None])
  = [msg_did_not_select_any_text; msg_single_line]
  /\ documentAfter (document cursorAtTop)
       (sortActiveSelection w [makeSorter None])
     = document cursorAtTop.
Proof. split; reflexivity. Qed.

(** ** The edit of [sortLines] *)

Lemma readLines_span (doc : TextDocument) (i count : nat) :
  (i + count <= length doc)%nat ->
  readLines doc i count = Some (take count (drop i doc)).
Proof.
  revert i. induction count as [|n IH]; intros i Hi; simpl.
  - now rewrite take_0.
  - unfold lineAt.
    destruct (lookup_lt_is_Some_2 doc i ltac:(lia)) as [l Hl].
    rewrite Hl, IH by lia.
    rewrite (drop_S _ _ _ Hl). reflexivity.
Qed.

(** A line without line break, followed by a line feed, is cut off as
    one line. *)
Lemma splitLines_line (l text : jsstring) :
  noLineBreak l ->
  splitLines l = [l]
  /\ splitLines (l ++ LF :: text) = l :: splitLines text.
Proof.
  intros [Hlf Hcr]. induction l as [|c l IH].
  - split; reflexivity.
  - apply not_elem_of_cons in Hlf as [Hc1 Hlf].
    apply not_elem_of_cons in Hcr as [Hc2 Hcr].
    destruct (IH Hlf Hcr) as [IH1 IH2].
    simpl app. cbn [splitLines].
    destruct (N.eqb_spec c LF) as [->|_]; [congruence|].
    destruct (N.eqb_spec c CR) as [->|_]; [congruence|].
    rewrite IH1, IH2. split; reflexivity.
Qed.

(** Joining lines with line feeds and cutting the text again gives the
    lines back; no lines at all give one empty line. *)
Lemma splitLines_Array_join (lines : list jsstring) :
  Forall noLineBreak lines ->
  splitLines (Array_join lines [LF])
  = match lines with [] => [[]] | _ => lines end.
Proof.
  induction 1 as [|l lines Hl Hlines IH]; [reflexivity|].
  destruct lines as [|l' lines].
  - simpl. now apply splitLines_line.
  - change (Array_join (l :: l' :: lines) [LF])
      with (l ++ LF :: Array_join (l' :: lines) [LF]).
    rewrite (proj2 (splitLines_line l _ Hl)), IH. reflexivity.
Qed.

(** C10.  For a span inside the document, [sortLines] asks for one
    edit; its text is the transformed lines joined by line feeds, and
    the document after the edit is the lines before [startLine], then
    the lines of that text, then the lines after [endLine]: every line
    below [startLine] keeps its index and content, every line above
    [endLine] keeps its content behind the new lines. *)
Theorem sortLines_edits_only_the_span (w : Workbench) (textEditor : TextEditor)
    (startLine endLine : nat) (transformers : list ArrayTransformer) :
  (startLine <= endLine)%nat ->
  (endLine < lineCount (document textEditor))%nat ->
  let doc := document textEditor in
  let selected := spanLines doc startLine endLine in
  let lines := applyTransformers transformers
                 (if filterBlankLines w then removeBlanks selected
                  else selected) in
  exists e,
    sortLines w textEditor startLine endLine transformers = Some e
    /\ newText e = Array_join lines [LF]
    /\ applyEdit doc e
       = take startLine doc ++ splitLines (newText e) ++ drop (S endLine) doc
    /\ (forall i, (i < startLine)%nat -> applyEdit doc e !! i = doc !! i)
    /\ (forall i, (endLine < i)%nat ->
          applyEdit doc e
            !! (startLine + length (splitLines (newText e))
                + (i - S endLine))%nat
          = doc !! i)
    /\ (lines <> [] -> Forall noLineBreak lines ->
        applyEdit doc e = take startLine doc ++ lines ++ drop (S endLine) doc).
Proof.
  intros Hse Hend. cbv zeta. unfold lineCount in Hend.
  destruct (lookup_lt_is_Some_2 (document textEditor) endLine Hend)
    as [endText HendText].
  unfold sortLines, spanLines.
  rewrite readLines_span by lia.
  unfold lineAt. rewrite HendText.
  eexists. split; [reflexivity|]. cbn [newText].
  set (text := Array_join _ _).
  assert (applyEdit (document textEditor)
            {| range := new_Range startLine 0 endLine (length endText);
               newText := text |}
          = take startLine (document textEditor) ++ splitLines text
              ++ drop (S endLine) (document textEditor)) as Hdoc.
  { unfold applyEdit, new_Range, isBefore. cbn [range newText line character].
    destruct (Nat.ltb_spec endLine startLine); [lia|].
    replace ((endLine =? startLine)%nat && (length endText <? 0)%nat)
      with false by (now rewrite andb_false_r).
    cbn [orb start end_ line character].
    rewrite HendText. cbn [default].
    rewrite take_0, drop_all, app_nil_r. reflexivity. }
  split; [reflexivity|]. split; [exact Hdoc|].
  rewrite Hdoc. split; [|split].
  - intros i Hi. rewrite lookup_app_l by (rewrite length_take; lia).
    now rewrite lookup_take_lt.
  - intros i Hi.
    rewrite lookup_app_r by (rewrite length_take; lia).
    rewrite lookup_app_r by (rewrite length_take; lia).
    rewrite lookup_drop. f_equal. rewrite length_take. lia.
  - intros Hne Hlb. subst text.
    rewrite (splitLines_Array_join _ Hlb).
    now destruct (applyTransformers _ _).
Qed.

Lemma sortLines_edits_only_the_span_witness :
  exists e,
    sortLines plainWorkbench listEditor 1 4 [makeSorter None; removeDuplicates]
    = Some e
    /\ newText e = js "a" ++ [LF] ++ js "b" ++ [LF] ++ js "c"
    /\ applyEdit (document listEditor) e
       = [js "header"; js "a"; js "b"; js "c"; js "footer"].
Proof.
  destruct (sortLines_edits_only_the_span plainWorkbench listEditor 1 4
              [makeSorter None; removeDuplicates])
    as (e & He & Htext & _ & _ & _ & Hlines).
  - simpl; lia.
  - simpl; lia.
  - exists e. split; [exact He|]. split; [rewrite Htext; reflexivity|].
    rewrite Hlines; [reflexivity|differ|].
    match goal with
    | |- Forall _ ?l => let l' := eval vm_compute in l in change l with l'
    end.
    repeat (apply Forall_cons; split; [split; absent|]).
    apply Forall_nil_2.
Defined.

(** When nothing is left to write, the span becomes one empty line. *)
Example sortLines_all_blank :
  let w := {| activeTextEditor := None; sortEntireFile := false;
              filterBlankLines := true |} in
  let ed := {| document := [js "x"; js "  "; []; js "y"];
               selection := new_Range 1 0 2 0 |} in
  documentAfter (document ed)
    {| shown := []; edit := sortLines w ed 1 2 [makeSorter None] |}
  = [js "x"; []; js "y"].
Proof. reflexivity. Qed.

(* ===================================================================== *)
(** * Further properties of the code *)
(* ===================================================================== *)

(** ** [removeBlanks] *)

Lemma trimStart_head (s : jsstring) :
  trimStart s = []
  \/ exists c t, trimStart s = c :: t /\ isTrimmed c = false.
Proof.
  induction s as [|c s IH]; [now left|].
  simpl. destruct (isTrimmed c) eqn:Hc; [exact IH|].
  right. now exists c, s.
Qed.

Lemma trimStart_nil (s : jsstring) : trimStart s = [] <-> isBlank s = true.
Proof.
  unfold isBlank. induction s as [|c s IH]; simpl; [tauto|].
  destruct (isTrimmed c); simpl; [exact IH|]. split; discriminate.
Qed.

(** [trim] leaves the empty string exactly of the blank lines. *)
Lemma String_trim_nil (s : jsstring) :
  str_eqb (String_trim s) [] = isBlank s.
Proof.
  apply eq_true_iff_eq. rewrite str_eqb_eq. unfold String_trim.
  split.
  - intros H. apply trimStart_nil.
    destruct (trimStart_head s) as [Hs|(c & t & Hs & Hc)]; [exact Hs|].
    rewrite Hs in H.
    apply (f_equal (@rev N)) in H. rewrite rev_involutive in H. simpl in H.
    apply trimStart_nil in H. unfold isBlank in H.
    rewrite forallb_app in H. simpl in H. rewrite Hc in H.
    rewrite andb_false_r in H. discriminate.
  - intros H. apply trimStart_nil in H. now rewrite H.
Qed.

Lemma removeBlanks_filter (lines : list jsstring) :
  removeBlanks lines = List.filter (fun l => negb (isBlank l)) lines.
Proof.
  induction lines as [|l lines IH]; [reflexivity|].
  simpl. rewrite String_trim_nil, IH. now destruct (isBlank l).
Qed.

(** The loop from index [length done] on, the lines before it being
    settled. *)
Lemma removeBlanksFrom_rest (fuel : nat) (done rest : list jsstring) :
  (length rest < fuel)%nat ->
  removeBlanksFrom fuel (Z.of_nat (length done)) (done ++ rest)
  = Some (done ++ removeBlanks rest).
Proof.
  revert done rest. induction fuel as [|fuel IH]; intros done rest Hfuel;
    [lia|].
  cbn [removeBlanksFrom]. rewrite Nat2Z.id, length_app.
  destruct rest as [|l rest].
  - simpl. destruct (Z.ltb_spec (Z.of_nat (length done))
                       (Z.of_nat (length done + 0))); [lia|].
    reflexivity.
  - destruct (Z.ltb_spec (Z.of_nat (length done))
                (Z.of_nat (length done + length (l :: rest))));
      [|simpl in *; lia].
    rewrite list_lookup_middle by reflexivity.
    cbn [removeBlanks]. destruct (str_eqb (String_trim l) []).
    + cbv zeta. replace (Z.of_nat (length done) - 1 + 1)
        with (Z.of_nat (length done)) by lia.
      rewrite delete_middle. apply IH. simpl in Hfuel. lia.
    + replace (Z.of_nat (length done) + 1)
        with (Z.of_nat (length (done ++ [l])))
        by (rewrite length_app; simpl; lia).
      rewrite (cons_middle l done rest), app_assoc.
      rewrite IH by (simpl in Hfuel; lia).
      now rewrite <- app_assoc.
Qed.

(** X1.  The splicing loop of [removeBlanks] ends within
    [length lines + 1] tests of its condition and leaves exactly the
    lines that are not blank, in their order; runs of blank lines are
    removed whole. *)
Theorem removeBlanks_loop_filters (lines : list jsstring) :
  removeBlanksFrom (S (length lines)) 0 lines
  = Some (List.filter (fun l => negb (isBlank l)) lines)
  /\ removeBlanks lines = List.filter (fun l => negb (isBlank l)) lines.
Proof.
  split; [|apply removeBlanks_filter].
  rewrite <- removeBlanks_filter.
  exact (removeBlanksFrom_rest (S (length lines)) [] lines (Nat.lt_succ_diag_r _)).
Qed.

(** ** [removeDuplicates] *)

Lemma Set_add_member (s : list jsstring) (x : jsstring) :
  x ∈ s -> Set_add s x = s.
Proof.
  intros H. unfold Set_add. apply existsb_str_eqb in H. now rewrite H.
Qed.

Lemma Set_add_new (s : list jsstring) (x : jsstring) :
  x ∉ s -> Set_add s x = s ++ [x].
Proof.
  intros H. unfold Set_add.
  destruct (existsb (str_eqb x) s) eqn:Hx; [|reflexivity].
  apply existsb_str_eqb in Hx. contradiction.
Qed.

(** Items that are members already add nothing. *)
Lemma fold_Set_add_skip (items s : list jsstring) (x : jsstring) :
  x ∈ s ->
  fold_left Set_add items s
  = fold_left Set_add (List.filter (fun y => negb (str_eqb y x)) items) s.
Proof.
  revert s. induction items as [|y items IH]; intros s Hx; [reflexivity|].
  simpl. destruct (str_eqb y x) eqn:Hyx; simpl.
  - apply str_eqb_eq in Hyx. subst y. rewrite (Set_add_member _ _ Hx).
    now apply IH.
  - apply IH. unfold Set_add. destruct (existsb (str_eqb y) s); [exact Hx|].
    apply elem_of_app. now left.
Qed.

Lemma fold_Set_add_head (items s : list jsstring) (x : jsstring) :
  x ∉ items ->
  fold_left Set_add items (x :: s) = x :: fold_left Set_add items s.
Proof.
  revert s. induction items as [|y items IH]; intros s Hx; [reflexivity|].
  apply not_elem_of_cons in Hx as [Hxy Hx]. simpl.
  replace (Set_add (x :: s) y) with (x :: Set_add s y); [now apply IH|].
  unfold Set_add. simpl.
  destruct (str_eqb y x) eqn:Hyx.
  - apply str_eqb_eq in Hyx. congruence.
  - simpl. now destruct (existsb (str_eqb y) s).
Qed.

Lemma fold_Set_add_fresh (items s : list jsstring) :
  NoDup (s ++ items) -> fold_left Set_add items s = s ++ items.
Proof.
  revert s. induction items as [|y items IH]; intros s Hnd; simpl.
  - now rewrite app_nil_r.
  - assert (y ∉ s) as Hy.
    { apply NoDup_app in Hnd as (_ & Hdisj & _). intros Hin.
      apply (Hdisj y Hin). now left. }
    rewrite (Set_add_new _ _ Hy), IH; rewrite <- app_assoc; [reflexivity|].
    exact Hnd.
Qed.

(** X2.  [removeDuplicates] returns every line of its input once, in
    the order of the input: its result is a sublist of the input without
    repetition and with the same members. *)
Theorem removeDuplicates_once_each (lines : list jsstring) :
  NoDup (removeDuplicates lines)
  /\ (forall x, x ∈ removeDuplicates lines <-> x ∈ lines)
  /\ removeDuplicates lines `sublist_of` lines.
Proof.
  unfold removeDuplicates, new_Set.
  destruct (fold_Set_add lines []) as (Hin & Hnd & Hsub).
  split; [apply Hnd, NoDup_nil_2|]. split; [|exact Hsub].
  intros x. rewrite Hin, elem_of_nil. tauto.
Qed.

(** X3.  Of equal lines [removeDuplicates] keeps the first: the head of
    the input stays the head, and the rest is handled with the later
    copies of the head taken out. *)
Theorem removeDuplicates_keeps_first (x : jsstring) (lines : list jsstring) :
  removeDuplicates (x :: lines)
  = x :: removeDuplicates
           (List.filter (fun y => negb (str_eqb y x)) lines).
Proof.
  unfold removeDuplicates, new_Set. simpl fold_left at 1.
  change (Set_add [] x) with [x].
  rewrite (fold_Set_add_skip lines [x] x) by (now left).
  apply fold_Set_add_head.
  rewrite list_elem_of_In, filter_In. intros [_ H].
  now rewrite str_eqb_refl in H.
Qed.

(** X4.  [removeDuplicates] leaves a list without repetition as it is;
    so applying it twice is applying it once. *)
Theorem removeDuplicates_idempotent (lines : list jsstring) :
  (NoDup lines -> removeDuplicates lines = lines)
  /\ removeDuplicates (removeDuplicates lines) = removeDuplicates lines.
Proof.
  assert (forall l, NoDup l -> removeDuplicates l = l) as Hfix
    by (intros l Hl; exact (fold_Set_add_fresh l [] Hl)).
  split; [apply Hfix|]. apply Hfix.
  unfold removeDuplicates, new_Set.
  destruct (fold_Set_add lines []) as (_ & Hnd & _).
  apply Hnd, NoDup_nil_2.
Qed.

Lemma removeDuplicates_idempotent_witness :
  NoDup [js "b"; js "a"]
  /\ removeDuplicates [js "b"; js "a"] = [js "b"; js "a"].
Proof.
  assert (NoDup [js "b"; js "a"]) as H.
  { apply NoDup_cons. split; [absent|].
    apply NoDup_cons. split; [absent|apply NoDup_nil_2]. }
  split; [exact H|].
  exact (proj1 (removeDuplicates_idempotent [js "b"; js "a"]) H).
Defined.

(** ** What the sorting policies put in order *)

Lemma StronglySorted_weaken (R R' : jsstring -> jsstring -> Prop)
    (l : list jsstring) :
  (forall x y, x ∈ l -> y ∈ l -> R x y -> R' x y) ->
  StronglySorted R l -> StronglySorted R' l.
Proof.
  intros Himpl Hl. induction Hl as [|x l Hl IH Hx]; [constructor|].
  constructor.
  - apply IH. intros y z Hy Hz. apply Himpl; now right.
  - rewrite Forall_forall in *. intros y Hy.
    apply Himpl; [now left|now right|now apply Hx].
Qed.

Lemma StronglySorted_rev (R : jsstring -> jsstring -> Prop)
    (l : list jsstring) :
  StronglySorted R l -> StronglySorted (fun a b => R b a) (rev l).
Proof.
  induction 1 as [|x l Hl IH Hx]; [constructor|].
  simpl. apply StronglySorted_app_2; [|exact IH|repeat constructor].
  intros y z Hy Hz. apply list_elem_of_singleton in Hz. subst z.
  rewrite Forall_forall in Hx. apply Hx.
  apply list_elem_of_In. apply in_rev. now apply list_elem_of_In.
Qed.

(** Sorting with a comparator that answers "not positive" exactly for
    the pairs of a total, transitive relation [R] puts the lines in the
    order of [R].  The lines may be confined to a set [P]. *)
Section SortBy.
Variable cmp : SortingAlgorithm.
Variable R : jsstring -> jsstring -> Prop.
Variable P : jsstring -> Prop.
Hypothesis cmp_R : forall x y, P x -> P y -> (cmp x y <= 0 <-> R x y).
Hypothesis R_total : forall x y, P x -> P y -> R x y \/ R y x.
Hypothesis R_trans :
  forall x y z, P x -> P y -> P z -> R x y -> R y z -> R x z.

Lemma sortInsert_by (x : jsstring) (sorted : list jsstring) :
  P x -> Forall P sorted ->
  StronglySorted R sorted -> StronglySorted R (sortInsert cmp x sorted).
Proof.
  intros Hx HP Hs. induction Hs as [|y rest Hrest IH Hy]; simpl.
  - repeat constructor.
  - apply Forall_cons in HP as [HPy HPrest].
    destruct (Z.gtb_spec (cmp x y) 0) as [Hgt|Hle].
    + constructor; [now apply IH|].
      rewrite sortInsert_Permutation. constructor; [|exact Hy].
      destruct (R_total x y Hx HPy) as [Hxy|Hyx]; [|exact Hyx].
      apply cmp_R in Hxy; [lia|assumption|assumption].
    + assert (R x y) as Hxy by (apply cmp_R; [assumption..|lia]).
      constructor; [now constructor|].
      constructor; [exact Hxy|].
      rewrite Forall_forall in *. intros z Hz.
      apply (R_trans x y z); auto.
Qed.

Lemma Array_sort_by (lines : list jsstring) :
  Forall P lines -> StronglySorted R (Array_sort (Some cmp) lines).
Proof.
  unfold Array_sort. induction 1 as [|x lines Hx Hlines IH]; simpl.
  - constructor.
  - apply sortInsert_by; [exact Hx| |exact IH].
    change (Forall P (Array_sort (Some cmp) lines)).
    now rewrite Array_sort_Permutation.
Qed.
End SortBy.

Lemma str_le_total (a b : jsstring) : str_le a b \/ str_le b a.
Proof.
  unfold str_le. destruct (str_ltb b a) eqn:H; [|now left].
  right. now apply str_ltb_asym.
Qed.

Lemma str_le_antisym (a b : jsstring) : str_le a b -> str_le b a -> a = b.
Proof.
  unfold str_le. intros Hab Hba.
  destruct (decide (a = b)) as [|Hne]; [assumption|].
  pose proof (str_ltb_total _ _ Hne Hba). congruence.
Qed.

Lemma reverseCompare_order (a b : jsstring) :
  reverseCompare a b <= 0 <-> str_le b a.
Proof.
  unfold reverseCompare, str_le. destruct (str_eqb a b) eqn:He.
  - apply str_eqb_eq in He. subst b. rewrite str_ltb_irrefl. lia.
  - destruct (str_ltb a b); split; intros H; try lia; congruence.
Qed.

Lemma lineLengthCompare_order (a b : jsstring) :
  lineLengthCompare a b <= 0 <-> (codePointCount a <= codePointCount b)%nat.
Proof.
  unfold lineLengthCompare, codePointCount.
  destruct (Nat.eqb_spec (length (Array_from a)) (length (Array_from b)));
    [lia|].
  destruct (Nat.ltb_spec (length (Array_from b)) (length (Array_from a)));
    lia.
Qed.

Lemma lineLengthCompare_values (a b : jsstring) :
  lineLengthCompare a b = -1 \/ lineLengthCompare a b = 0
  \/ lineLengthCompare a b = 1.
Proof.
  unfold lineLengthCompare.
  destruct (_ =? _)%nat; [tauto|]. destruct (_ <? _)%nat; tauto.
Qed.

Lemma lineLengthCompare_swap (a b : jsstring) :
  lineLengthCompare b a = - lineLengthCompare a b.
Proof.
  unfold lineLengthCompare.
  destruct (Nat.eqb_spec (length (Array_from a)) (length (Array_from b))),
    (Nat.eqb_spec (length (Array_from b)) (length (Array_from a)));
    try lia.
  destruct (Nat.ltb_spec (length (Array_from b)) (length (Array_from a))),
    (Nat.ltb_spec (length (Array_from a)) (length (Array_from b))); lia.
Qed.

Lemma lineLengthReverseCompare_order (a b : jsstring) :
  lineLengthReverseCompare a b <= 0
  <-> (codePointCount b <= codePointCount a)%nat.
Proof.
  rewrite <- lineLengthCompare_order, lineLengthCompare_swap.
  unfold lineLengthReverseCompare. lia.
Qed.

(** X5.  The pipeline of [sortNormal] returns the lines rearranged in
    ascending code-unit order. *)
Theorem sortNormal_ascending (h : Host) (lines : list jsstring) :
  applyTransformers (transformerSequences h sortNormal) lines ≡ₚ lines
  /\ StronglySorted str_le
       (applyTransformers (transformerSequences h sortNormal) lines).
Proof.
  split; [apply Array_sort_Permutation|apply Array_sort_default_sorted].
Qed.

(** X6.  The pipeline of [sortReverse] returns the lines rearranged in
    descending code-unit order: its output is the output of
    [sortNormal] read backwards. *)
Theorem sortReverse_descending (h : Host) (lines : list jsstring) :
  applyTransformers (transformerSequences h sortReverse) lines ≡ₚ lines
  /\ StronglySorted (fun a b => str_le b a)
       (applyTransformers (transformerSequences h sortReverse) lines)
  /\ applyTransformers (transformerSequences h sortReverse) lines
     = rev (applyTransformers (transformerSequences h sortNormal) lines).
Proof.
  unfold applyTransformers. cbn [transformerSequences fold_left].
  unfold makeSorter.
  assert (StronglySorted (fun a b => str_le b a)
            (Array_sort (Some reverseCompare) lines)) as Hsorted.
  { apply (Array_sort_by reverseCompare (fun a b => str_le b a)
             (fun _ => True)).
    - intros x y _ _. apply reverseCompare_order.
    - intros x y _ _. apply str_le_total.
    - intros x y z _ _ _ Hxy Hyz. eapply str_le_trans; eassumption.
    - now apply Forall_forall. }
  split; [apply Array_sort_Permutation|]. split; [exact Hsorted|].
  apply (StronglySorted_unique_strong (fun a b => str_le b a)).
  - intros x y _ _ Hxy Hyx. now apply str_le_antisym.
  - exact Hsorted.
  - apply StronglySorted_rev, Array_sort_default_sorted.
  - rewrite <- Permutation_rev. now rewrite !Array_sort_Permutation.
Qed.

(** X7.  The pipeline of [sortLineLength] returns the lines rearranged
    so that their numbers of code points never decrease; that of
    [sortLineLengthReverse] so that they never increase. *)
Theorem sortLineLength_by_code_points (h : Host) (lines : list jsstring) :
  (applyTransformers (transformerSequences h sortLineLength) lines ≡ₚ lines
   /\ StronglySorted (fun a b => (codePointCount a <= codePointCount b)%nat)
        (applyTransformers (transformerSequences h sortLineLength) lines))
  /\ (applyTransformers (transformerSequences h sortLineLengthReverse) lines
      ≡ₚ lines
      /\ StronglySorted (fun a b => (codePointCount b <= codePointCount a)%nat)
           (applyTransformers (transformerSequences h sortLineLengthReverse)
              lines)).
Proof.
  unfold applyTransformers. cbn [transformerSequences fold_left].
  unfold makeSorter.
  split; (split; [apply Array_sort_Permutation|]).
  - apply (Array_sort_by lineLengthCompare _ (fun _ => True)).
    + intros x y _ _. apply lineLengthCompare_order.
    + intros x y _ _. lia.
    + intros x y z _ _ _. lia.
    + now apply Forall_forall.
  - apply (Array_sort_by lineLengthReverseCompare _ (fun _ => True)).
    + intros x y _ _. apply lineLengthReverseCompare_order.
    + intros x y _ _. lia.
    + intros x y z _ _ _. lia.
    + now apply Forall_forall.
Qed.

(** X8.  The pipelines of [sortVariableLength] and
    [sortVariableLengthReverse] do the same with the number of code
    points of the key that [getVariableCharacters] extracts. *)
Theorem sortVariableLength_by_key (h : Host) (lines : list jsstring) :
  let keyCount := fun a => codePointCount (getVariableCharacters a) in
  (applyTransformers (transformerSequences h sortVariableLength) lines
   ≡ₚ lines
   /\ StronglySorted (fun a b => (keyCount a <= keyCount b)%nat)
        (applyTransformers (transformerSequences h sortVariableLength) lines))
  /\ (applyTransformers (transformerSequences h sortVariableLengthReverse)
        lines ≡ₚ lines
      /\ StronglySorted (fun a b => (keyCount b <= keyCount a)%nat)
           (applyTransformers
              (transformerSequences h sortVariableLengthReverse) lines)).
Proof.
  cbv zeta. unfold applyTransformers. cbn [transformerSequences fold_left].
  unfold makeSorter.
  split; (split; [apply Array_sort_Permutation|]).
  - apply (Array_sort_by variableLengthCompare _ (fun _ => True)).
    + intros x y _ _. apply lineLengthCompare_order.
    + intros x y _ _. lia.
    + intros x y z _ _ _. lia.
    + now apply Forall_forall.
  - apply (Array_sort_by variableLengthReverseCompare _ (fun _ => True)).
    + intros x y _ _. unfold variableLengthReverseCompare, variableLengthCompare.
      rewrite <- lineLengthCompare_order, lineLengthCompare_swap. lia.
    + intros x y _ _. lia.
    + intros x y z _ _ _. lia.
    + now apply Forall_forall.
Qed.

(** ** Sorting by the token windows *)

Lemma indexOf_present (s : jsstring) (c : N) : c ∈ s -> 0 <= indexOf s c.
Proof.
  induction s as [|x s IH]; intros Hc; [now apply elem_of_nil in Hc|].
  simpl. destruct (N.eqb_spec x c) as [|Hne]; [lia|].
  apply elem_of_cons in Hc as [Hc|Hc]; [congruence|].
  specialize (IH Hc). destruct (Z.ltb_spec (indexOf s c) 0); lia.
Qed.

Lemma keyCompare_order (k1 k2 : list N) :
  keyCompare k1 k2 <= 0 <-> str_le k1 k2.
Proof.
  unfold keyCompare, str_le. destruct (str_eqb k1 k2) eqn:He.
  - apply str_eqb_eq in He. subst k2. rewrite str_ltb_irrefl. lia.
  - apply str_eqb_neq in He. destruct (str_ltb k1 k2) eqn:Hlt.
    + rewrite (str_ltb_asym _ _ Hlt). lia.
    + rewrite (str_ltb_total _ _ He Hlt). split; [lia|discriminate].
Qed.

Lemma keyCompare_swap (k1 k2 : list N) :
  keyCompare k2 k1 = - keyCompare k1 k2.
Proof.
  unfold keyCompare. destruct (str_eqb k1 k2) eqn:He.
  - apply str_eqb_eq in He. subst k2. now rewrite str_eqb_refl.
  - apply str_eqb_neq in He.
    rewrite (proj2 (str_eqb_neq k2 k1)) by congruence.
    destruct (str_ltb k1 k2) eqn:Hlt.
    + now rewrite (str_ltb_asym _ _ Hlt).
    + now rewrite (str_ltb_total _ _ He Hlt).
Qed.

Lemma windowCompare_present (n : nat) (a b : jsstring) :
  LESS_THAN_SIGN ∈ a -> LESS_THAN_SIGN ∈ b ->
  windowCompare n a b = keyCompare (windowOf n a) (windowOf n b).
Proof.
  intros Ha Hb. unfold windowCompare, windowOf. cbv zeta.
  apply indexOf_present in Ha, Hb.
  destruct (Z.ltb_spec (indexOf a LESS_THAN_SIGN) 0); [lia|].
  destruct (Z.ltb_spec (indexOf b LESS_THAN_SIGN) 0); [lia|].
  reflexivity.
Qed.

Lemma windowCompare_swap (n : nat) (a b : jsstring) :
  windowCompare n b a = - windowCompare n a b.
Proof.
  unfold windowCompare. cbv zeta. rewrite orb_comm.
  destruct (_ || _); [reflexivity|apply keyCompare_swap].
Qed.

Lemma Array_sort_by_window (n : nat) (lines : list jsstring) :
  Forall (fun l => LESS_THAN_SIGN ∈ l) lines ->
  StronglySorted (fun a b => str_le (windowOf n a) (windowOf n b))
    (Array_sort (Some (windowCompare n)) lines).
Proof.
  apply (Array_sort_by (windowCompare n) _ (fun l => LESS_THAN_SIGN ∈ l)).
  - intros x y Hx Hy. rewrite (windowCompare_present n x y Hx Hy).
    apply keyCompare_order.
  - intros x y _ _. apply str_le_total.
  - intros x y z _ _ _. apply str_le_trans.
Qed.

Lemma Array_sort_ext (f g : SortingAlgorithm) (lines : list jsstring) :
  (forall a b, f a b = g a b) ->
  Array_sort (Some f) lines = Array_sort (Some g) lines.
Proof.
  intros Hfg. unfold Array_sort.
  induction lines as [|x lines IH]; [reflexivity|].
  simpl. rewrite IH. generalize (foldr (sortInsert g) [] lines).
  intros sorted. induction sorted as [|y rest IHs]; [reflexivity|].
  simpl. now rewrite Hfg, IHs.
Qed.

(** X9.  When every line holds a [<], the pipeline of [timestamp]
    returns the lines rearranged in ascending order of their windows of
    30 code units, and that of [sortDate] in ascending order of their
    windows of 10. *)
Theorem timestamp_sorts_by_window (h : Host) (lines : list jsstring) :
  Forall (fun l => LESS_THAN_SIGN ∈ l) lines ->
  (applyTransformers (transformerSequences h timestamp) lines ≡ₚ lines
   /\ StronglySorted (fun a b => str_le (windowOf 30 a) (windowOf 30 b))
        (applyTransformers (transformerSequences h timestamp) lines))
  /\ (applyTransformers (transformerSequences h sortDate) lines ≡ₚ lines
      /\ StronglySorted (fun a b => str_le (windowOf 10 a) (windowOf 10 b))
           (applyTransformers (transformerSequences h sortDate) lines)).
Proof.
  intros Hall. unfold applyTransformers. cbn [transformerSequences fold_left].
  unfold makeSorter.
  split; (split; [apply Array_sort_Permutation|]).
  - rewrite (Array_sort_ext _ _ lines timestampCompare_window).
    now apply Array_sort_by_window.
  - rewrite (Array_sort_ext _ _ lines dateCompare_window).
    now apply Array_sort_by_window.
Qed.

Lemma timestamp_sorts_by_window_witness :
  Forall (fun l => LESS_THAN_SIGN ∈ l)
    [js "b <2024-02-01> x"; js "<2024-01-15> y"; js "a <2023-12-31> z"]
  /\ applyTransformers (transformerSequences sampleHost timestamp)
       [js "b <2024-02-01> x"; js "<2024-01-15> y"; js "a <2023-12-31> z"]
     = [js "a <2023-12-31> z"; js "<2024-01-15> y"; js "b <2024-02-01> x"]
  /\ StronglySorted (fun a b => str_le (windowOf 30 a) (windowOf 30 b))
       (applyTransformers (transformerSequences sampleHost timestamp)
          [js "b <2024-02-01> x"; js "<2024-01-15> y"; js "a <2023-12-31> z"]).
Proof.
  assert (Forall (fun l => LESS_THAN_SIGN ∈ l)
            [js "b <2024-02-01> x"; js "<2024-01-15> y";
             js "a <2023-12-31> z"]) as H.
  { repeat (apply Forall_cons; split;
            [apply list_elem_of_In; vm_compute; tauto|]).
    apply Forall_nil_2. }
  split; [exact H|]. split; [reflexivity|].
  exact (proj2 (proj1 (timestamp_sorts_by_window sampleHost _ H))).
Defined.

(** X10.  Swapping the arguments of a comparator negates its result. *)
Theorem comparators_antisymmetric (a b : jsstring) :
  reverseCompare b a = - reverseCompare a b
  /\ lineLengthCompare b a = - lineLengthCompare a b
  /\ lineLengthReverseCompare b a = - lineLengthReverseCompare a b
  /\ variableLengthCompare b a = - variableLengthCompare a b
  /\ variableLengthReverseCompare b a = - variableLengthReverseCompare a b
  /\ timestampCompare b a = - timestampCompare a b
  /\ dateCompare b a = - dateCompare a b.
Proof.
  split; [|split; [|split; [|split; [|split; [|split]]]]].
  - unfold reverseCompare. destruct (str_eqb a b) eqn:He.
    + apply str_eqb_eq in He. subst b. now rewrite str_eqb_refl.
    + apply str_eqb_neq in He.
      rewrite (proj2 (str_eqb_neq b a)) by congruence.
      destruct (str_ltb a b) eqn:Hlt.
      * now rewrite (str_ltb_asym _ _ Hlt).
      * now rewrite (str_ltb_total _ _ He Hlt).
  - apply lineLengthCompare_swap.
  - unfold lineLengthReverseCompare.
    rewrite (lineLengthCompare_swap a b). lia.
  - apply lineLengthCompare_swap.
  - unfold variableLengthReverseCompare, variableLengthCompare.
    rewrite (lineLengthCompare_swap (getVariableCharacters a)). lia.
  - rewrite !timestampCompare_window. apply windowCompare_swap.
  - rewrite !dateCompare_window. apply windowCompare_swap.
Qed.

(** ** The key of the variable-length comparators *)

Lemma getVariableCharacters_take (line : jsstring) :
  noLineTerminator line ->
  getVariableCharacters line =
    match lastIndexOf_eq line with
    | Some (S k) => take (S k) line
    | _ => line
    end.
Proof.
  intros H. unfold getVariableCharacters.
  destruct (lastIndexOf_eq line) as [k|] eqn:Hk.
  - rewrite (String_match_some _ _ H Hk). simpl.
    destruct k as [|k]; [reflexivity|].
    destruct line as [|c line]; [discriminate|reflexivity].
  - now rewrite (String_match_none _ H Hk).
Qed.

Lemma lastIndexOf_eq_lt (s : jsstring) (k : nat) :
  lastIndexOf_eq s = Some k -> (k < length s)%nat.
Proof.
  revert k. induction s as [|c s IH]; intros k; simpl; [discriminate|].
  destruct (lastIndexOf_eq s) as [j|].
  - intros [= <-]. specialize (IH j eq_refl). lia.
  - destruct (c =? EQUALS_SIGN)%N; [|discriminate]. intros [= <-]. lia.
Qed.

Lemma codePointCount_key (line : jsstring) :
  noLineTerminator line -> noSurrogate line ->
  codePointCount (getVariableCharacters line) = variableKeyLength line.
Proof.
  intros Hlt Hbmp. rewrite (getVariableCharacters_take _ Hlt).
  unfold variableKeyLength, codePointCount.
  destruct (lastIndexOf_eq line) as [[|k]|] eqn:Hk;
    try (now rewrite (Array_from_noSurrogate _ Hbmp)).
  rewrite Array_from_noSurrogate by (now apply Forall_take).
  apply lastIndexOf_eq_lt in Hk. rewrite length_take. lia.
Qed.

(** X11.  On lines without line terminators and without surrogate
    pairs, the variable-length comparators compare the numbers of code
    units before the last [=] (the whole length, for a line without [=]
    or with its last [=] in front). *)
Theorem variableLengthCompare_by_key_length (a b : jsstring) :
  noLineTerminator a -> noSurrogate a ->
  noLineTerminator b -> noSurrogate b ->
  (variableLengthCompare a b <= 0
   <-> (variableKeyLength a <= variableKeyLength b)%nat)
  /\ (variableLengthCompare a b = 0
      <-> variableKeyLength a = variableKeyLength b)
  /\ (variableLengthReverseCompare a b <= 0
      <-> (variableKeyLength b <= variableKeyLength a)%nat).
Proof.
  intros Ha1 Ha2 Hb1 Hb2.
  rewrite <- (codePointCount_key a Ha1 Ha2), <- (codePointCount_key b Hb1 Hb2).
  unfold variableLengthReverseCompare, variableLengthCompare.
  pose proof (lineLengthCompare_order (getVariableCharacters a)
                (getVariableCharacters b)) as Hle.
  pose proof (lineLengthCompare_order (getVariableCharacters b)
                (getVariableCharacters a)) as Hge.
  rewrite (lineLengthCompare_swap (getVariableCharacters a)) in Hge.
  pose proof (lineLengthCompare_values (getVariableCharacters a)
                (getVariableCharacters b)).
  split; [exact Hle|]. split; lia.
Qed.

Lemma variableLengthCompare_by_key_length_witness :
  variableKeyLength (js "name=x") = 4%nat
  /\ variableKeyLength (js "a=b=c") = 3%nat
  /\ variableLengthCompare (js "a=b=c") (js "name=x") <= 0.
Proof.
  split; [reflexivity|]. split; [reflexivity|].
  apply (variableLengthCompare_by_key_length (js "a=b=c") (js "name=x")).
  - reflexivity.
  - repeat constructor.
  - reflexivity.
  - repeat constructor.
  - vm_compute. lia.
Defined.

(** ** What [getVariableCharacters] returns on any line *)

Lemma match_here_capture (s cap : jsstring) :
  match_here s = Some cap ->
  noLineTerminator cap /\ exists post, s = cap ++ EQUALS_SIGN :: post.
Proof.
  revert cap. induction s as [|c s IH]; intros cap; simpl; [discriminate|].
  destruct (isLineTerminator c) eqn:Hc; [discriminate|].
  destruct (match_here s) as [cap'|].
  - intros [= <-]. destruct (IH cap' eq_refl) as [Hnl [post ->]].
    split; [|now exists post].
    unfold noLineTerminator in *. simpl. now rewrite Hc, Hnl.
  - destruct (N.eqb_spec c EQUALS_SIGN) as [->|_]; [|discriminate].
    intros [= <-]. split; [reflexivity|now exists s].
Qed.

Lemma String_match_capture (s : jsstring) (m : list jsstring) :
  String_match s = Some m ->
  exists cap pre post,
    m = [cap ++ [EQUALS_SIGN]; cap]
    /\ noLineTerminator cap
    /\ s = pre ++ cap ++ EQUALS_SIGN :: post.
Proof.
  revert m. induction s as [|c s IH]; intros m; cbn [String_match].
  - simpl. discriminate.
  - destruct (match_here (c :: s)) as [cap|] eqn:Hcap.
    + intros [= <-].
      destruct (match_here_capture _ _ Hcap) as [Hnl [post Hs]].
      exists cap, [], post. now rewrite Hs.
    + intros Hm. destruct (IH m Hm) as (cap & pre & post & -> & Hnl & ->).
      now exists cap, (c :: pre), post.
Qed.

(** X12.  On any line, [getVariableCharacters] returns either the line
    itself or a key that is not empty, holds no line terminator and
    stands in the line right before an [=].  It returns the empty
    string for the empty line only. *)
Theorem getVariableCharacters_part_of_line (line : jsstring) :
  (getVariableCharacters line = line
   \/ getVariableCharacters line <> []
      /\ noLineTerminator (getVariableCharacters line)
      /\ exists pre post,
           line = pre ++ getVariableCharacters line ++ EQUALS_SIGN :: post)
  /\ (getVariableCharacters line = [] <-> line = []).
Proof.
  assert (getVariableCharacters line = line
          \/ getVariableCharacters line <> []
             /\ noLineTerminator (getVariableCharacters line)
             /\ exists pre post,
                  line = pre ++ getVariableCharacters line
                           ++ EQUALS_SIGN :: post) as Hcases.
  { unfold getVariableCharacters.
    destruct (String_match line) as [m|] eqn:Hm; [|now left].
    destruct (String_match_capture _ _ Hm) as (cap & pre & post & -> & Hnl & Hl).
    simpl. destruct cap as [|c cap]; [now left|].
    right. split; [discriminate|]. split; [exact Hnl|].
    now exists pre, post. }
  split; [exact Hcases|]. split.
  - intros Hnil. destruct Hcases as [Hsame|[Hne _]]; congruence.
  - intros ->. reflexivity.
Qed.

(** ** What every pipeline keeps *)

Lemma removeDuplicates_sublist (lines : list jsstring) :
  removeDuplicates lines `sublist_of` lines.
Proof.
  unfold removeDuplicates, new_Set.
  now destruct (fold_Set_add lines []) as (_ & _ & Hsub).
Qed.

Lemma removeDuplicates_members (lines : list jsstring) :
  NoDup (removeDuplicates lines)
  /\ forall x, x ∈ removeDuplicates lines <-> x ∈ lines.
Proof.
  unfold removeDuplicates, new_Set.
  destruct (fold_Set_add lines []) as (Hin & Hnd & _).
  split; [apply Hnd, NoDup_nil_2|].
  intros x. rewrite Hin, elem_of_nil. tauto.
Qed.

Lemma shuffleSorter_rearranges (rand : nat -> nat) (lines : list jsstring) :
  (forall i, (rand i <= i)%nat) -> shuffleSorter rand lines ≡ₚ lines.
Proof.
  intros Hrand. unfold shuffleSorter. destruct lines as [|l lines];
    [reflexivity|].
  apply shuffleFrom_Permutation; [exact Hrand|simpl; lia].
Qed.

(** X13.  No pipeline adds a line or changes one: the output of every
    policy is drawn from the input, each line at most as often as it
    occurs there, and the policies that do not end in
    [removeDuplicates] return the input rearranged.  (For [sortShuffle]
    the indices drawn are taken to lie within their bounds.) *)
Theorem policies_keep_the_lines (h : Host) (p : Policy)
    (lines : list jsstring) :
  (forall i, (randomIndex h i <= i)%nat) ->
  applyTransformers (transformerSequences h p) lines ⊆+ lines
  /\ (removesDuplicates p = false ->
      applyTransformers (transformerSequences h p) lines ≡ₚ lines
      /\ length (applyTransformers (transformerSequences h p) lines)
         = length lines).
Proof.
  intros Hrand.
  assert (forall alg, removeDuplicates (makeSorter alg lines) ⊆+ lines)
    as Hdedup.
  { intros alg. etransitivity.
    - apply sublist_submseteq, removeDuplicates_sublist.
    - apply Permutation_submseteq, Array_sort_Permutation. }
  assert (forall out : list jsstring,
            out ≡ₚ lines ->
            out ⊆+ lines /\ (false = false ->
                             out ≡ₚ lines /\ length out = length lines))
    as Hperm.
  { intros out Hout. split; [now apply Permutation_submseteq|].
    intros _. split; [exact Hout|now rewrite Hout]. }
  unfold applyTransformers.
  destruct p; cbn [transformerSequences fold_left removesDuplicates];
    try (apply Hperm; apply Array_sort_Permutation).
  - split; [apply Hdedup|discriminate].
  - split; [apply Hdedup|discriminate].
  - apply Hperm. now apply shuffleSorter_rearranges.
  - split; [|discriminate].
    apply sublist_submseteq, removeDuplicates_sublist.
Qed.

Lemma sampleHost_bounds : forall i, (randomIndex sampleHost i <= i)%nat.
Proof.
  intros i. simpl. apply Nat.lt_eq_cases. destruct i; [now right|].
  left. apply Nat.lt_div2. lia.
Qed.

Lemma policies_keep_the_lines_witness :
  (forall i, (randomIndex sampleHost i <= i)%nat)
  /\ applyTransformers (transformerSequences sampleHost sortShuffle)
       [js "a"; js "b"; js "c"]
     ≡ₚ [js "a"; js "b"; js "c"].
Proof.
  split; [exact sampleHost_bounds|].
  apply (policies_keep_the_lines sampleHost sortShuffle
           [js "a"; js "b"; js "c"] sampleHost_bounds).
  reflexivity.
Defined.

(** X14.  The three policies that end in [removeDuplicates] return
    every line of the input exactly once; lines are taken for equal
    only when they are the same text, whatever the comparator in front
    (after [sortCaseInsensitiveUnique], lines that differ in case all
    remain). *)
Theorem unique_policies_keep_one_of_each (h : Host) (p : Policy)
    (lines : list jsstring) :
  removesDuplicates p = true ->
  NoDup (applyTransformers (transformerSequences h p) lines)
  /\ (forall x,
        x ∈ applyTransformers (transformerSequences h p) lines
        <-> x ∈ lines).
Proof.
  intros Hp. unfold applyTransformers.
  destruct p; try discriminate Hp; cbn [transformerSequences fold_left].
  - destruct (removeDuplicates_members (makeSorter None lines)) as [Hnd Hin].
    split; [exact Hnd|]. intros x. rewrite Hin. unfold makeSorter.
    now rewrite Array_sort_Permutation.
  - destruct (removeDuplicates_members
                (makeSorter (Some (caseInsensitiveCompare (collation h)))
                   lines)) as [Hnd Hin].
    split; [exact Hnd|]. intros x. rewrite Hin. unfold makeSorter.
    now rewrite Array_sort_Permutation.
  - apply removeDuplicates_members.
Qed.

Lemma unique_policies_keep_one_of_each_witness :
  removesDuplicates sortCaseInsensitiveUnique = true
  /\ applyTransformers (transformerSequences sampleHost sortCaseInsensitiveUnique)
       [js "b"; js "A"; js "a"; js "A"]
     = [js "A"; js "a"; js "b"]
  /\ NoDup (applyTransformers
              (transformerSequences sampleHost sortCaseInsensitiveUnique)
              [js "b"; js "A"; js "a"; js "A"]).
Proof.
  split; [reflexivity|]. split; [reflexivity|].
  exact (proj1 (unique_policies_keep_one_of_each sampleHost
                  sortCaseInsensitiveUnique
                  [js "b"; js "A"; js "a"; js "A"] eq_refl)).
Defined.

(** X15.  The pipeline of [sortCaseInsensitive] returns the lines
    rearranged in ascending order of their primary keys, the base
    letters the host's collation gives them. *)
Theorem sortCaseInsensitive_by_base_letters (h : Host)
    (lines : list jsstring) :
  applyTransformers (transformerSequences h sortCaseInsensitive) lines
  ≡ₚ lines
  /\ StronglySorted
       (fun a b => str_le (primaryKey (collation h) a)
                          (primaryKey (collation h) b))
       (applyTransformers (transformerSequences h sortCaseInsensitive) lines).
Proof.
  unfold applyTransformers. cbn [transformerSequences fold_left].
  unfold makeSorter. split; [apply Array_sort_Permutation|].
  apply (Array_sort_by (caseInsensitiveCompare (collation h)) _
           (fun _ => True)).
  - intros x y _ _.
    unfold caseInsensitiveCompare, Collator_compare, primaryKey. simpl.
    rewrite <- keyCompare_order.
    destruct (Z.eqb_spec
                (keyCompare (levelKey primary (collation h x))
                            (levelKey primary (collation h y))) 0) as [->|];
      lia.
  - intros x y _ _. apply str_le_total.
  - intros x y z _ _ _. apply str_le_trans.
  - now apply Forall_forall.
Qed.

(** ** When [sortActiveSelection] edits *)

(** X16.  [sortActiveSelection] hands an edit to the editor only with
    an active editor whose selection either spans several lines or is
    empty while [sortEntireFile] is on.  Without an active editor, and
    with a selection on one line that is not empty or comes without
    [sortEntireFile], it edits nothing and shows a message. *)
Theorem sortActiveSelection_edits_only_when (w : Workbench)
    (transformers : list ArrayTransformer) :
  (edit (sortActiveSelection w transformers) <> None ->
   exists textEditor,
     activeTextEditor w = Some textEditor
     /\ (isSingleLine (selection textEditor) = false
         \/ isEmpty (selection textEditor) = true
            /\ sortEntireFile w = true))
  /\ (activeTextEditor w = None ->
      sortActiveSelection w transformers
      = {| shown := [msg_source_file_too_large]; edit := None |})
  /\ (forall textEditor,
        activeTextEditor w = Some textEditor ->
        isSingleLine (selection textEditor) = true ->
        isEmpty (selection textEditor) && sortEntireFile w = false ->
        edit (sortActiveSelection w transformers) = None
        /\ msg_single_line ∈ shown (sortActiveSelection w transformers)
        /\ documentAfter (document textEditor)
             (sortActiveSelection w transformers)
           = document textEditor).
Proof.
  unfold sortActiveSelection, documentAfter.
  split; [|split].
  - destruct (activeTextEditor w) as [ed|]; [|now intros H].
    intros Hedit. exists ed. split; [reflexivity|].
    destruct (isEmpty (selection ed)) eqn:He,
      (sortEntireFile w) eqn:Hs,
      (isSingleLine (selection ed)) eqn:Hl;
      simpl in Hedit; try tauto; now contradiction Hedit.
  - now intros ->.
  - intros ed -> Hl Hes. rewrite Hl, Hes. simpl.
    split; [reflexivity|]. split; [|reflexivity].
    apply elem_of_app. right. now left.
Qed.

Lemma sortActiveSelection_edits_only_when_witness :
  let w := {| activeTextEditor :=
                Some {| document := [js "one line"];
                        selection := new_Range 0 2 0 5 |};
              sortEntireFile := true;
              filterBlankLines := false |} in
  shown (sortActiveSelection w [makeSorter None]) = [msg_single_line]
  /\ edit (sortActiveSelection w [makeSorter None]) = None.
Proof.
  cbv zeta. split; [reflexivity|].
  eapply (proj2 (proj2 (sortActiveSelection_edits_only_when _ _)));
    reflexivity.
Defined.

(** ** The edit, on documents *)

Lemma sortLines_inside (w : Workbench) (textEditor : TextEditor)
    (startLine endLine : nat) (transformers : list ArrayTransformer) :
  (startLine <= endLine)%nat ->
  (endLine < lineCount (document textEditor))%nat ->
  exists endText,
    document textEditor !! endLine = Some endText
    /\ sortLines w textEditor startLine endLine transformers
       = Some {| range := {| start := {| line := startLine; character := 0 |};
                             end_ := {| line := endLine;
                                        character := length endText |} |};
                 newText :=
                   Array_join
                     (applyTransformers transformers
                        (if filterBlankLines w
                         then removeBlanks
                                (spanLines (document textEditor)
                                   startLine endLine)
                         else spanLines (document textEditor)
                                startLine endLine))
                     [LF] |}.
Proof.
  intros Hse Hend. unfold lineCount in Hend.
  destruct (lookup_lt_is_Some_2 (document textEditor) endLine Hend)
    as [endText HendText].
  exists endText. split; [exact HendText|].
  unfold sortLines, spanLines. rewrite readLines_span by lia.
  unfold lineAt. rewrite HendText.
  unfold new_Range, isBefore. cbn [line character].
  destruct (Nat.ltb_spec endLine startLine); [lia|].
  now rewrite andb_false_r.
Qed.

Lemma applyEdit_whole_lines (doc : TextDocument) (startLine endLine : nat)
    (endText text : jsstring) :
  doc !! endLine = Some endText ->
  applyEdit doc
    {| range := {| start := {| line := startLine; character := 0 |};
                   end_ := {| line := endLine;
                              character := length endText |} |};
       newText := text |}
  = take startLine doc ++ splitLines text ++ drop (S endLine) doc.
Proof.
  intros Hend. unfold applyEdit. cbn [range newText start end_ line character].
  rewrite Hend. cbn [default].
  now rewrite take_0, drop_all, app_nil_r.
Qed.

Lemma removeBlanks_members (lines : list jsstring) (x : jsstring) :
  x ∈ removeBlanks lines -> x ∈ lines.
Proof.
  rewrite removeBlanks_filter, !list_elem_of_In, filter_In. tauto.
Qed.

Lemma removeBlanks_all_blank (lines : list jsstring) :
  Forall (fun l => isBlank l = true) lines -> removeBlanks lines = [].
Proof.
  induction 1 as [|l lines Hl _ IH]; [reflexivity|].
  simpl. now rewrite String_trim_nil, Hl.
Qed.

Lemma spanLines_members (doc : TextDocument) (startLine endLine : nat)
    (x : jsstring) :
  x ∈ spanLines doc startLine endLine -> x ∈ doc.
Proof.
  unfold spanLines. intros H.
  eapply elem_of_sublist; [exact H|].
  etransitivity; [apply sublist_take|apply sublist_drop].
Qed.

(** X17.  With a selection over several lines inside the document, no
    message is shown and the edit covers whole lines: from column 0 of
    the line the selection starts in to the end of the line it ends in,
    wherever in those lines the selection starts and ends. *)
Theorem sortActiveSelection_whole_lines (w : Workbench)
    (textEditor : TextEditor) (transformers : list ArrayTransformer) :
  activeTextEditor w = Some textEditor ->
  (line (start (selection textEditor))
   < line (end_ (selection textEditor)))%nat ->
  (line (end_ (selection textEditor))
   < lineCount (document textEditor))%nat ->
  shown (sortActiveSelection w transformers) = []
  /\ exists e endText,
       edit (sortActiveSelection w transformers) = Some e
       /\ document textEditor !! line (end_ (selection textEditor))
          = Some endText
       /\ start (range e)
          = {| line := line (start (selection textEditor)); character := 0 |}
       /\ end_ (range e)
          = {| line := line (end_ (selection textEditor));
               character := length endText |}.
Proof.
  intros Hed Hlines Hend. unfold sortActiveSelection. rewrite Hed.
  assert (isSingleLine (selection textEditor) = false) as Hsingle
    by (unfold isSingleLine; apply Nat.eqb_neq; lia).
  assert (isEmpty (selection textEditor) = false) as Hempty
    by (unfold isEmpty; fold (isSingleLine (selection textEditor));
        now rewrite Hsingle).
  rewrite Hempty, Hsingle. simpl.
  split; [reflexivity|].
  destruct (sortLines_inside w textEditor _ _ transformers
              (Nat.lt_le_incl _ _ Hlines) Hend) as (endText & HendText & ->).
  eexists _, endText. split; [reflexivity|]. split; [exact HendText|].
  split; reflexivity.
Qed.

Lemma sortActiveSelection_whole_lines_witness :
  shown (sortActiveSelection plainWorkbench [makeSorter None]) = []
  /\ documentAfter (document listEditor)
       (sortActiveSelection plainWorkbench [makeSorter None])
     = [js "header"; js "a"; js "a"; js "b"; js "c"; js "footer"].
Proof.
  split; [|reflexivity].
  apply (sortActiveSelection_whole_lines plainWorkbench listEditor);
    [reflexivity|vm_compute; lia|vm_compute; lia].
Defined.

Lemma readLines_past_end (doc : TextDocument) (i count : nat) :
  (0 < count)%nat -> (length doc < i + count)%nat ->
  readLines doc i count = None.
Proof.
  revert i. induction count as [|n IH]; intros i Hpos Hi; [lia|].
  simpl. unfold lineAt. destruct (doc !! i) eqn:Hl; [|reflexivity].
  apply lookup_lt_Some in Hl. now rewrite IH by lia.
Qed.

(** X18.  When the span reaches past the last line of the document,
    [sortLines] throws on reading it, before any transformer runs, and
    asks for no edit. *)
Theorem sortLines_past_end (w : Workbench) (textEditor : TextEditor)
    (startLine endLine : nat) (transformers : list ArrayTransformer) :
  (startLine <= endLine)%nat ->
  (lineCount (document textEditor) <= endLine)%nat ->
  sortLines w textEditor startLine endLine transformers = None.
Proof.
  intros Hse Hend. unfold sortLines, lineCount in *.
  now rewrite readLines_past_end by lia.
Qed.

Lemma sortLines_past_end_witness :
  sortLines plainWorkbench listEditor 4 6 [makeSorter None] = None.
Proof.
  apply (sortLines_past_end plainWorkbench listEditor 4 6); simpl; lia.
Defined.

Lemma Forall_noLineBreak_join (lines : list jsstring) :
  Forall noLineBreak lines ->
  splitLines (Array_join lines [LF])
  = match lines with [] => [[]] | _ => lines end.
Proof. apply splitLines_Array_join. Qed.

Lemma spanLines_split (doc : TextDocument) (startLine endLine : nat) :
  (startLine <= endLine)%nat ->
  doc = take startLine doc ++ spanLines doc startLine endLine
          ++ drop (S endLine) doc.
Proof.
  intros Hse. unfold spanLines.
  replace (S endLine) with (startLine + (S endLine - startLine))%nat at 2
    by lia.
  rewrite <- drop_drop, take_drop. now rewrite take_drop.
Qed.

(** The document after [sortLines], when the lines of the document hold
    no line break and the transformers return lines of their input. *)
Lemma sortLines_document (w : Workbench) (textEditor : TextEditor)
    (startLine endLine : nat) (transformers : list ArrayTransformer) :
  (startLine <= endLine)%nat ->
  (endLine < lineCount (document textEditor))%nat ->
  Forall noLineBreak (document textEditor) ->
  (forall l x, x ∈ applyTransformers transformers l -> x ∈ l) ->
  let doc := document textEditor in
  let selected := spanLines doc startLine endLine in
  let output := applyTransformers transformers
                  (if filterBlankLines w then removeBlanks selected
                   else selected) in
  exists e,
    sortLines w textEditor startLine endLine transformers = Some e
    /\ applyEdit doc e
       = take startLine doc
           ++ match output with [] => [[]] | _ => output end
           ++ drop (S endLine) doc.
Proof.
  intros Hse Hend Hdoc Hkeep. cbv zeta.
  destruct (sortLines_inside w textEditor startLine endLine transformers
              Hse Hend) as (endText & HendText & ->).
  eexists. split; [reflexivity|].
  rewrite (applyEdit_whole_lines _ _ _ _ _ HendText).
  rewrite Forall_noLineBreak_join; [reflexivity|].
  apply Forall_forall. intros x Hx. apply Hkeep in Hx.
  rewrite Forall_forall in Hdoc. apply Hdoc.
  apply (spanLines_members _ startLine endLine).
  destruct (filterBlankLines w); [now apply removeBlanks_members|exact Hx].
Qed.

Lemma Array_sort_keeps (algorithm : option SortingAlgorithm)
    (l : list jsstring) (x : jsstring) :
  x ∈ applyTransformers [makeSorter algorithm] l -> x ∈ l.
Proof.
  unfold applyTransformers, makeSorter. simpl.
  now rewrite Array_sort_Permutation.
Qed.

(** X19.  On a document whose lines hold no line break, with
    transformers that return lines of their input, [sortLines] replaces
    the lines of the span by the output of the transformers, line for
    line (after the blank lines are taken out, with [filterBlankLines]);
    an empty output leaves one empty line in place of the span. *)
Theorem sortLines_writes_the_output (w : Workbench) (textEditor : TextEditor)
    (startLine endLine : nat) (transformers : list ArrayTransformer) :
  (startLine <= endLine)%nat ->
  (endLine < lineCount (document textEditor))%nat ->
  Forall noLineBreak (document textEditor) ->
  (forall l x, x ∈ applyTransformers transformers l -> x ∈ l) ->
  let doc := document textEditor in
  let selected := spanLines doc startLine endLine in
  let output := applyTransformers transformers
                  (if filterBlankLines w then removeBlanks selected
                   else selected) in
  exists e,
    sortLines w textEditor startLine endLine transformers = Some e
    /\ applyEdit doc e
       = take startLine doc
           ++ match output with [] => [[]] | _ => output end
           ++ drop (S endLine) doc.
Proof.
  intros Hse Hend Hdoc Hkeep. cbv zeta.
  destruct (sortLines_inside w textEditor startLine endLine transformers
              Hse Hend) as (endText & HendText & ->).
  eexists. split; [reflexivity|].
  rewrite (applyEdit_whole_lines _ _ _ _ _ HendText).
  rewrite Forall_noLineBreak_join; [reflexivity|].
  apply Forall_forall. intros x Hx.
  rewrite Forall_forall in Hdoc. apply Hdoc.
  apply (spanLines_members _ startLine endLine).
  apply Hkeep in Hx.
  destruct (filterBlankLines w); [now apply removeBlanks_members|exact Hx].
Qed.

Lemma listEditor_noLineBreak : Forall noLineBreak (document listEditor).
Proof.
  repeat (apply Forall_cons; split; [split; absent|]). apply Forall_nil_2.
Qed.

Lemma sortLines_writes_the_output_witness :
  exists e,
    sortLines plainWorkbench listEditor 1 4 [makeSorter (Some reverseCompare)]
    = Some e
    /\ applyEdit (document listEditor) e
       = [js "header"; js "c"; js "b"; js "a"; js "a"; js "footer"].
Proof.
  destruct (sortLines_writes_the_output plainWorkbench listEditor 1 4
              [makeSorter (Some reverseCompare)]) as (e & He & Hdoc).
  - simpl; lia.
  - simpl; lia.
  - exact listEditor_noLineBreak.
  - apply Array_sort_keeps.
  - exists e. split; [exact He|]. rewrite Hdoc. reflexivity.
Defined.

(** X20.  With [filterBlankLines] on and nothing but blank lines in the
    span, the span is not deleted: one empty line is left in its
    place. *)
Theorem sortLines_all_blank_leaves_a_line (w : Workbench)
    (textEditor : TextEditor) (startLine endLine : nat)
    (transformers : list ArrayTransformer) :
  (startLine <= endLine)%nat ->
  (endLine < lineCount (document textEditor))%nat ->
  Forall noLineBreak (document textEditor) ->
  (forall l x, x ∈ applyTransformers transformers l -> x ∈ l) ->
  filterBlankLines w = true ->
  Forall (fun l => isBlank l = true)
    (spanLines (document textEditor) startLine endLine) ->
  exists e,
    sortLines w textEditor startLine endLine transformers = Some e
    /\ applyEdit (document textEditor) e
       = take startLine (document textEditor) ++ [[]]
           ++ drop (S endLine) (document textEditor).
Proof.
  intros Hse Hend Hdoc Hkeep Hfilter Hblank.
  destruct (sortLines_document w textEditor startLine endLine transformers
              Hse Hend Hdoc Hkeep) as (e & He & Hafter).
  exists e. split; [exact He|]. rewrite Hafter, Hfilter.
  rewrite (removeBlanks_all_blank _ Hblank).
  destruct (applyTransformers transformers []) as [|x out] eqn:Hout;
    [reflexivity|].
  exfalso. apply (elem_of_nil x). apply (Hkeep [] x). rewrite Hout. now left.
Qed.

Lemma sortLines_all_blank_leaves_a_line_witness :
  let w := {| activeTextEditor := None; sortEntireFile := false;
              filterBlankLines := true |} in
  let ed := {| document := [js "x"; js "  "; []; js "y"];
               selection := new_Range 1 0 2 0 |} in
  exists e,
    sortLines w ed 1 2 [makeSorter None] = Some e
    /\ applyEdit (document ed) e = [js "x"; []; js "y"].
Proof.
  cbv zeta.
  destruct (sortLines_all_blank_leaves_a_line
              {| activeTextEditor := None; sortEntireFile := false;
                 filterBlankLines := true |}
              {| document := [js "x"; js "  "; []; js "y"];
                 selection := new_Range 1 0 2 0 |}
              1 2 [makeSorter None]) as (e & He & Hdoc).
  - simpl; lia.
  - simpl; lia.
  - repeat (apply Forall_cons; split; [split; absent|]). apply Forall_nil_2.
  - apply Array_sort_keeps.
  - reflexivity.
  - repeat constructor.
  - exists e. split; [exact He|]. rewrite Hdoc. reflexivity.
Defined.

(** X21.  Without [filterBlankLines], with transformers that rearrange
    their input, the edit rearranges the document: the document after
    it holds the same lines as before, as many, and those outside the
    span where they were. *)
Theorem sortLines_rearranges_the_document (w : Workbench)
    (textEditor : TextEditor) (startLine endLine : nat)
    (transformers : list ArrayTransformer) :
  (startLine <= endLine)%nat ->
  (endLine < lineCount (document textEditor))%nat ->
  Forall noLineBreak (document textEditor) ->
  (forall l, applyTransformers transformers l ≡ₚ l) ->
  filterBlankLines w = false ->
  exists e,
    sortLines w textEditor startLine endLine transformers = Some e
    /\ applyEdit (document textEditor) e ≡ₚ document textEditor
    /\ length (applyEdit (document textEditor) e)
       = length (document textEditor)
    /\ (forall i, (i < startLine \/ endLine < i)%nat ->
          applyEdit (document textEditor) e !! i = document textEditor !! i).
Proof.
  intros Hse Hend Hdoc Hperm Hfilter.
  assert (forall l x, x ∈ applyTransformers transformers l -> x ∈ l) as Hkeep
    by (intros l x; now rewrite Hperm).
  destruct (sortLines_document w textEditor startLine endLine transformers
              Hse Hend Hdoc Hkeep) as (e & He & Hafter).
  exists e. split; [exact He|].
  rewrite Hfilter in Hafter.
  set (doc := document textEditor) in *.
  set (out := applyTransformers transformers (spanLines doc startLine endLine))
    in *.
  assert (out ≡ₚ spanLines doc startLine endLine) as Hout by apply Hperm.
  assert (length out = (S endLine - startLine)%nat) as Hlen.
  { rewrite Hout. unfold spanLines. rewrite length_take, length_drop.
    unfold lineCount in Hend. fold doc in Hend. lia. }
  assert (match out with [] => [[]] | _ => out end = out) as Hmatch
    by (destruct out; [simpl in Hlen; lia|reflexivity]).
  rewrite Hmatch in Hafter.
  assert (applyEdit doc e ≡ₚ doc) as Hp.
  { rewrite Hafter, Hout. now rewrite <- spanLines_split. }
  split; [exact Hp|]. split; [now rewrite Hp|].
  intros i Hi. rewrite Hafter. unfold lineCount in Hend. fold doc in Hend.
  destruct Hi as [Hi|Hi].
  - rewrite lookup_app_l by (rewrite length_take; lia).
    now rewrite lookup_take_lt.
  - rewrite lookup_app_r by (rewrite length_take; lia).
    rewrite lookup_app_r by (rewrite length_take; lia).
    rewrite lookup_drop. f_equal. rewrite length_take. lia.
Qed.

Lemma sortLines_rearranges_the_document_witness :
  exists e,
    sortLines plainWorkbench listEditor 1 4 [shuffleSorter Nat.div2] = Some e
    /\ applyEdit (document listEditor) e ≡ₚ document listEditor.
Proof.
  destruct (sortLines_rearranges_the_document plainWorkbench listEditor 1 4
              [shuffleSorter Nat.div2]) as (e & He & Hp & _).
  - simpl; lia.
  - simpl; lia.
  - exact listEditor_noLineBreak.
  - intros l. unfold applyTransformers. simpl.
    apply shuffleSorter_rearranges. exact sampleHost_bounds.
  - reflexivity.
  - exists e. split; [exact He|exact Hp].
Defined.

(** ** A command on the whole document *)

(** Every pipeline returns exactly the lines it was given, as a set. *)
Lemma policy_members (h : Host) (p : Policy) (lines : list jsstring) :
  (forall i, (randomIndex h i <= i)%nat) ->
  forall x, x ∈ applyTransformers (transformerSequences h p) lines
            <-> x ∈ lines.
Proof.
  intros Hrand x. unfold applyTransformers.
  destruct p; cbn [transformerSequences fold_left]; unfold makeSorter;
    rewrite ?(proj2 (removeDuplicates_members _)),
            ?Array_sort_Permutation; try reflexivity.
  now rewrite (shuffleSorter_rearranges _ _ Hrand).
Qed.

Lemma spanLines_whole (doc : TextDocument) :
  spanLines doc 0 (lineCount doc - 1) = doc.
Proof.
  unfold spanLines, lineCount. rewrite drop_0. apply take_ge. lia.
Qed.

(** X22.  A command run with nothing selected and [sortEntireFile] on,
    without [filterBlankLines], on a document whose lines hold no line
    break, leaves as the document exactly the output of the policy's
    pipeline on all the lines of the document. *)
Theorem command_on_entire_file (h : Host) (w : Workbench)
    (textEditor : TextEditor) (p : Policy) :
  activeTextEditor w = Some textEditor ->
  isEmpty (selection textEditor) = true ->
  sortEntireFile w = true ->
  filterBlankLines w = false ->
  document textEditor <> [] ->
  Forall noLineBreak (document textEditor) ->
  (forall i, (randomIndex h i <= i)%nat) ->
  documentAfter (document textEditor) (command h w p)
  = applyTransformers (transformerSequences h p) (document textEditor).
Proof.
  intros Hed Hempty Hentire Hfilter Hne Hdoc Hrand.
  unfold command, documentAfter.
  rewrite (sortActiveSelection_empty_selection w textEditor _ Hed Hempty).
  rewrite Hentire. cbn [edit].
  set (doc := document textEditor) in *.
  assert (0 < length doc)%nat as Hlen
    by (destruct doc; [congruence|simpl; lia]).
  destruct (sortLines_document w textEditor 0 (lineCount doc - 1)
              (transformerSequences h p)) as (e & -> & Hafter).
  - lia.
  - unfold lineCount. fold doc. lia.
  - exact Hdoc.
  - intros l x. now rewrite (policy_members h p l Hrand).
  - fold doc in Hafter. rewrite Hafter, Hfilter, spanLines_whole.
    rewrite take_0, drop_ge by (unfold lineCount; lia).
    rewrite app_nil_r. simpl.
    destruct (applyTransformers (transformerSequences h p) doc) eqn:Hout;
      [|reflexivity].
    destruct doc as [|l doc']; [congruence|].
    exfalso. apply (elem_of_nil l).
    rewrite <- Hout. apply (policy_members h p _ Hrand). now left.
Qed.

Lemma command_on_entire_file_witness :
  documentAfter (document cursorAtTop)
    (command sampleHost wholeFileWorkbench sortReverse)
  = [js "b"; js "a"].
Proof.
  rewrite (command_on_entire_file sampleHost wholeFileWorkbench cursorAtTop
             sortReverse).
  - reflexivity.
  - reflexivity.
  - reflexivity.
  - reflexivity.
  - reflexivity.
  - differ.
  - repeat (apply Forall_cons; split; [split; absent|]). apply Forall_nil_2.
  - exact sampleHost_bounds.
Defined.
